(** * BookManagementApp: the bookshelf page script [admin.js]

    A shallow embedding of the page script and the properties of its
    store, view pipeline and command handlers.

    Modelling conventions.
    - A JavaScript string is the list of its UTF-16 code units ([list N]);
      [===] on strings is equality of these lists and [<] is the
      lexicographic order on code units, a proper prefix being smaller.
    - Arrays are mutable and can be aliased, so they live in a heap of
      arrays addressed by location; [bookData] is the location bound by
      [let bookData = []].
    - Book objects are created by one object literal and no statement of
      the script assigns to a field of an existing object; in [State] a
      record is therefore held by its value. Arrays hold references in
      JavaScript: [RefState] models [getProcessedBooks] over an object heap,
      [getProcessedBooksRef_values] relates the two models, and what a
      caller can do to the store through a returned array is settled on
      [RefState].
    - The DOM is reduced to what the script reads back: the sort button's
      [data-sort-order] attribute and text, the value of the category
      filter, and the cards of the book grid with their text contents.
      A card is built by assigning a template literal to [innerHTML];
      [renderBooks] gives the cards the HTML parser builds when the
      interpolated fields are [plainText], that is free of the code units
      the parser treats as markup. For other fields the parser may build
      another tree (other texts, missing elements, a failing redraw), which
      is outside the model: statements about the contents of the grid, or
      about what follows a redraw inside a handler, carry the hypothesis
      that the fields are plain.
    - [String.prototype.toUpperCase] depends on the Unicode case tables; the
      pipeline is stated over an arbitrary [toUpperCase], and
      [toUpperCaseLatin] gives it on Basic Latin text for concrete runs.
    - [Array.prototype.sort] is the stable sort mandated by ECMAScript 2019;
      [sort_unique] shows the result does not depend on the algorithm. *)

From Stdlib Require Import ZArith NArith Lia Ascii String.
From stdpp Require Import list strings sorting.

Local Open Scope N_scope.

(** ** JavaScript strings *)

Abbreviation jsstring := (list N).

(** The code units of an ASCII literal. *)
Definition lit (s : string) : jsstring :=
  map N_of_ascii (String.list_ascii_of_string s).

(** [a === b] on strings. *)
Definition str_eqb (a b : jsstring) : bool := bool_decide (a = b).

(** Lexicographic comparison of code units, as [<] and [>] do on strings. *)
Fixpoint str_compare (a b : jsstring) : comparison :=
  match a, b with
  | [], [] => Eq
  | [], _ :: _ => Lt
  | _ :: _, [] => Gt
  | x :: a', y :: b' =>
      match N.compare x y with
      | Eq => str_compare a' b'
      | c => c
      end
  end.

Definition str_ltb (a b : jsstring) : bool :=
  match str_compare a b with Lt => true | _ => false end.

Definition str_gtb (a b : jsstring) : bool :=
  match str_compare a b with Gt => true | _ => false end.

(** [a <= b] in the code-unit order. *)
Definition str_le (a b : jsstring) : Prop := str_compare a b <> Gt.

(** White space and line terminators, the code units [trim] strips. *)
Definition isWhiteSpace (c : N) : bool :=
  (c =? 9) || (c =? 10) || (c =? 11) || (c =? 12) || (c =? 13) ||
  (c =? 32) || (c =? 160) || (c =? 5760) ||
  ((8192 <=? c) && (c <=? 8202)) ||
  (c =? 8232) || (c =? 8233) || (c =? 8239) || (c =? 8287) ||
  (c =? 12288) || (c =? 65279).

Fixpoint trimStart (s : jsstring) : jsstring :=
  match s with
  | [] => []
  | c :: s' => if isWhiteSpace c then trimStart s' else s
  end.

Definition trimEnd (s : jsstring) : jsstring :=
  reverse (trimStart (reverse s)).

(** [s.trim()] *)
Definition trim (s : jsstring) : jsstring := trimEnd (trimStart s).

Fixpoint startsWith (pat s : jsstring) : bool :=
  match pat, s with
  | [], _ => true
  | _ :: _, [] => false
  | p :: pat', c :: s' => (p =? c) && startsWith pat' s'
  end.

(** [s.replace(pat, rep)] for a string pattern: the first occurrence only.
    [rep] holds no [$] pattern in the script. *)
Fixpoint replace (pat rep s : jsstring) : jsstring :=
  if startsWith pat s then rep ++ drop (length pat) s
  else match s with
       | [] => []
       | c :: s' => c :: replace pat rep s'
       end.

(** [toUpperCase] on Basic Latin text: a..z go to A..Z. *)
Definition toUpperCaseLatin (s : jsstring) : jsstring :=
  map (fun c => if (97 <=? c) && (c <=? 122) then c - 32 else c) s.

(** ** Arrays *)

Section ArraySort.
Context {A : Type}.
Variable comparefn : A -> A -> Z.

Fixpoint sort_insert (x : A) (l : list A) : list A :=
  match l with
  | [] => [x]
  | y :: l' =>
      if (comparefn x y <=? 0)%Z then x :: l else y :: sort_insert x l'
  end.

(** [l.sort(comparefn)]: the stable sort, as a value. *)
Fixpoint Array_sort (l : list A) : list A :=
  match l with
  | [] => []
  | x :: l' => sort_insert x (Array_sort l')
  end.
End ArraySort.

(** [l.findIndex(p)], [None] standing for [-1]. *)
Definition findIndex {A} (p : A -> bool) (l : list A) : option nat :=
  fst <$> list_find (fun x => p x = true) l.

(** [l.splice(i, 1)], the array left behind. *)
Definition splice1 {A} (i : nat) (l : list A) : list A := delete i l.

(** ** Data model *)

Record Book := mkBook {
  title : jsstring;
  author : jsstring;
  category : jsstring;
  imageUrl : jsstring
}.

Global Instance Book_eq_dec : EqDecision Book.
Proof. solve_decision. Defined.

Definition DEFAULT_IMAGE_URL : jsstring :=
  lit "https://m.media-amazon.com/images/I/71ZB18P3inl._SY522_.jpg".

(** One [.book-card] of the grid: its [data-index], the image source and
    the text contents of the heading and the two paragraphs. *)
Record Card := mkCard {
  dataIndex : nat;
  imgSrc : jsstring;
  h3 : jsstring;
  pAuthor : jsstring;
  pCategory : jsstring
}.

Definition loc := nat.

Record State := mkState {
  heap : list (list Book);
  bookData : loc;
  sortOrderAttr : option jsstring;
  sortText : jsstring;
  filterValue : jsstring;
  bookGrid : list Card;
  console : list jsstring
}.

(** The array stored at a location. *)
Definition load (h : list (list Book)) (l : loc) : list Book :=
  default [] (h !! l).

(** A new array: the next free location and the extended heap. *)
Definition alloc (h : list (list Book)) (v : list Book)
  : loc * list (list Book) :=
  (length h, h ++ [v]).

(** The Book Store: the array [bookData] refers to. *)
Definition store (s : State) : list Book := load (heap s) (bookData s).

(** [bookData] refers to an allocated array. *)
Definition wf (s : State) : Prop := (bookData s < length (heap s))%nat.

Definition set_heap (h : list (list Book)) (s : State) : State :=
  mkState h (bookData s) (sortOrderAttr s) (sortText s) (filterValue s)
          (bookGrid s) (console s).

Definition set_sortButton (o : option jsstring) (t : jsstring) (s : State)
  : State :=
  mkState (heap s) (bookData s) o t (filterValue s) (bookGrid s) (console s).

Definition set_filterValue (v : jsstring) (s : State) : State :=
  mkState (heap s) (bookData s) (sortOrderAttr s) (sortText s) v
          (bookGrid s) (console s).

Definition set_bookGrid (g : list Card) (s : State) : State :=
  mkState (heap s) (bookData s) (sortOrderAttr s) (sortText s)
          (filterValue s) g (console s).

Definition log (m : jsstring) (s : State) : State :=
  mkState (heap s) (bookData s) (sortOrderAttr s) (sortText s)
          (filterValue s) (bookGrid s) (console s ++ [m]).

(** Truthiness of the value [getAttribute] returns: [null] and the empty
    string are falsy. *)
Definition truthy (o : option jsstring) : bool :=
  match o with
  | Some (_ :: _) => true
  | _ => false
  end.

(** [sortOrder === 'asc'] *)
Definition is_asc (o : option jsstring) : bool :=
  bool_decide (o = Some (lit "asc")).

(** The arrow of the button labels, U+2192. *)
Definition arrow : jsstring := [8594].

Definition label_AZ : jsstring := lit "Sort by Title A " ++ arrow ++ lit " Z".
Definition label_ZA : jsstring := lit "Sort by Title Z " ++ arrow ++ lit " A".

(** ** Text that the HTML parser leaves alone

    The code units that change what [innerHTML] builds from a template
    literal: NUL (dropped), carriage return (turned into a line feed), the
    double quote (ends the [alt] attribute the title is also written to),
    the ampersand (starts a character reference), the less-than sign
    (starts a tag) and the surrogates (not text on their own). *)
Definition isMarkupUnit (c : N) : bool :=
  (c =? 0) || (c =? 13) || (c =? 34) || (c =? 38) || (c =? 60)
  || ((55296 <=? c) && (c <=? 57343)).

Definition plainText (s : jsstring) : bool :=
  forallb (fun c => negb (isMarkupUnit c)) s.

Definition plainBook (b : Book) : bool :=
  plainText (title b) && plainText (author b) && plainText (category b)
  && plainText (imageUrl b).

(** ** The script *)

(** [renderBooks(books)]: the grid is cleared and receives one card per
    element, in order. The cards are those the HTML parser builds from the
    template of lines 30-36 when every interpolated field is [plainText]:
    the image source is the cover, the heading holds the title and the two
    paragraphs hold "Author: " and "Category: " followed by the field. *)
Definition renderBooks (books : list Book) : list Card :=
  imap (fun index book =>
          mkCard index (imageUrl book) (title book)
                 (lit "Author: " ++ author book)
                 (lit "Category: " ++ category book)) books.

Section Script.
Variable toUpperCase : jsstring -> jsstring.

(** The comparator of [getProcessedBooks], lines 61-72. *)
Definition compareTitles (sortOrder : option jsstring) (a b : Book) : Z :=
  let titleA := toUpperCase (title a) in
  let titleB := toUpperCase (title b) in
  if str_ltb titleA titleB then (if is_asc sortOrder then -1 else 1)%Z
  else if str_gtb titleA titleB then (if is_asc sortOrder then 1 else -1)%Z
  else 0%Z.

(** Lines 52-56 on array values: the filter step. *)
Definition filterBooks (selectedCategory : jsstring) (books : list Book)
  : list Book :=
  List.filter (fun book => str_eqb (category book) selectedCategory) books.

(** What the two steps of [getProcessedBooks] compute, on array values:
    the array after line 56 and the array after line 73. *)
Definition filtered (s : State) : list Book :=
  if negb (str_eqb (filterValue s) (lit "All"))
  then filterBooks (filterValue s) (store s)
  else store s.

Definition sorted (o : option jsstring) (l : list Book) : list Book :=
  if truthy o then Array_sort (compareTitles o) l else l.

(** [getProcessedBooks()]: the location of the array it returns and the
    state it leaves. The spread and [filter] allocate, [sort] works in
    place on the array [books] refers to. *)
Definition getProcessedBooks (s : State) : loc * State :=
  let '(books, h) := alloc (heap s) (load (heap s) (bookData s)) in
  let selectedCategory := filterValue s in
  let '(books, h) :=
    if negb (str_eqb selectedCategory (lit "All"))
    then alloc h (filterBooks selectedCategory (load h books))
    else (books, h) in
  let sortOrder := sortOrderAttr s in
  let h :=
    if truthy sortOrder
    then <[books := Array_sort (compareTitles sortOrder) (load h books)]> h
    else h in
  (books, set_heap h s).

(** The contents of the array [getProcessedBooks] returns. *)
Definition projection (s : State) : list Book :=
  let '(books, s') := getProcessedBooks s in load (heap s') books.

Definition updateDisplay (s : State) : State :=
  let '(booksToRender, s') := getProcessedBooks s in
  set_bookGrid (renderBooks (load (heap s') booksToRender)) s'.

(** [handleAddBook]: the three arguments are the values of the form's
    inputs when the submit event fires. *)
Definition handleAddBook (titleValue authorValue categoryValue : jsstring)
    (s : State) : State :=
  let newBook :=
    mkBook (trim titleValue) (trim authorValue) categoryValue
           DEFAULT_IMAGE_URL in
  let s :=
    set_heap (<[bookData s := load (heap s) (bookData s) ++ [newBook]]>
                (heap s)) s in
  updateDisplay s.

Definition handleSort (s : State) : State :=
  let currentOrder := sortOrderAttr s in
  let '(newOrder, newText) :=
    if is_asc currentOrder then (lit "desc", label_ZA)
    else (lit "asc", label_AZ) in
  updateDisplay (set_sortButton (Some newOrder) newText s).

(** Lines 158-169 of [handleDelete], once title and author are known. *)
Definition deleteMatching (bookTitle bookAuthor : jsstring) (s : State)
  : State :=
  let mainIndex :=
    findIndex (fun book => str_eqb (title book) bookTitle
                           && str_eqb (author book) bookAuthor)
              (load (heap s) (bookData s)) in
  match mainIndex with
  | Some i =>
      let s :=
        set_heap (<[bookData s := splice1 i (load (heap s) (bookData s))]>
                    (heap s)) s in
      log (lit "Deleted book: " ++ bookTitle) (updateDisplay s)
  | None => s
  end.

(** [handleDelete(event)], [bookCard] being the card that encloses the
    clicked button. *)
Definition handleDelete (bookCard : Card) (s : State) : State :=
  let bookTitle := h3 bookCard in
  let bookAuthor := replace (lit "Author: ") [] (pAuthor bookCard) in
  deleteMatching bookTitle bookAuthor s.

(** Modelled from the spec: the markup of the add form is not part of the
    script; the spec gives title, author and category as required fields
    whose emptiness blocks submission at the input layer. A required
    field is satisfied by any value other than the empty string. *)
Definition requiredFilled (titleValue authorValue categoryValue : jsstring)
  : bool :=
  negb (str_eqb titleValue []) && negb (str_eqb authorValue [])
  && negb (str_eqb categoryValue []).

(** The events the listeners of lines 175-177 and of each card react to. *)
Inductive Event :=
| Submit (titleValue authorValue categoryValue : jsstring)
| ClickSort
| ChangeFilter (value : jsstring)
| ClickDelete (card : nat).

Definition step (s : State) (e : Event) : State :=
  match e with
  | Submit t a c =>
      if requiredFilled t a c then handleAddBook t a c s else s
  | ClickSort => handleSort s
  | ChangeFilter v => updateDisplay (set_filterValue v s)
  | ClickDelete i =>
      match bookGrid s !! i with
      | Some bookCard => handleDelete bookCard s
      | None => s
      end
  end.

Definition run (s : State) (es : list Event) : State :=
  fold_left step es s.
End Script.

Global Instance Event_eq_dec : EqDecision Event.
Proof. solve_decision. Defined.

(** The page once the script has run. [bookData] is the empty array of
    line 2 and the grid is empty. The markup is not part of the script: the
    sort order starts unset and the filter on "All", as the spec has them,
    and [buttonText] stands for the label the markup gives the sort
    button. *)
Definition loaded (buttonText : jsstring) : State :=
  mkState [[]] 0%nat None buttonText (lit "All") [] [].

(** A state the page can start from. *)
Definition initial (s : State) : Prop :=
  wf s /\ store s = [] /\ bookGrid s = [].

(** ** A shelf of three books

    The run used in the examples: three submissions, one click on the sort
    button, one click on the Delete button of the middle card. *)

Definition page0 : State := loaded (lit "Sort by Title").

Definition three_adds : list Event :=
  [ Submit (lit "Dune") (lit "Frank Herbert") (lit "Technical");
    Submit (lit "Clean Code") (lit "Robert Martin") (lit "Technical");
    Submit (lit "Calvin and Hobbes") (lit "Bill Watterson") (lit "Comedy") ].

Definition shelf : State := run toUpperCaseLatin page0 three_adds.

Definition shelf_sorted : State := step toUpperCaseLatin shelf ClickSort.

(** In the sorted grid the card of "Clean Code" is the second one. *)
Definition shelf_after_delete : State :=
  step toUpperCaseLatin shelf_sorted (ClickDelete 1).

(** A shelf that holds the same book twice. *)
Definition twin_shelf : State :=
  run toUpperCaseLatin page0
    [ Submit (lit "Dune") (lit "Frank Herbert") (lit "Technical");
      Submit (lit "Clean Code") (lit "Robert Martin") (lit "Technical");
      Submit (lit "Dune") (lit "Frank Herbert") (lit "Technical") ].

(** A submission whose title field holds a single space. *)
Definition blank_title_add : Event :=
  Submit (lit " ") (lit "Frank Herbert") (lit "Technical").

(** A submission whose three fields are plain text; the other events
    carry no text that is rendered. *)
Definition plainEvent (e : Event) : bool :=
  match e with
  | Submit t a c => plainText t && plainText a && plainText c
  | _ => true
  end.

(** ** Records by reference

    In JavaScript an array holds references to its record objects, and
    the spread and [filter] of [getProcessedBooks] copy references. This
    second model keeps the record objects in a heap of their own, so that
    a write through an element of a returned array can be followed. *)

Global Instance Book_inhabited : Inhabited Book :=
  populate (mkBook [] [] [] []).

Record RefState := mkRefState {
  objects : list Book;
  refHeap : list (list nat);
  refBookData : loc;
  refSortOrderAttr : option jsstring;
  refFilterValue : jsstring
}.

(** The array of references stored at a location. *)
Definition refLoad (h : list (list nat)) (l : loc) : list nat :=
  default [] (h !! l).

(** The records of the store: the objects [bookData] refers to. *)
Definition refStore (s : RefState) : list Book :=
  map (fun r => objects s !!! r) (refLoad (refHeap s) (refBookData s)).

(** [getProcessedBooks()] over references, lines 49-76: the callbacks of
    [filter] and [sort] read the fields through the references. *)
Definition getProcessedBooksRef (toUpperCase : jsstring -> jsstring)
    (s : RefState) : loc * RefState :=
  let objs := objects s in
  let '(books, h) :=
    (length (refHeap s),
     refHeap s ++ [refLoad (refHeap s) (refBookData s)]) in
  let selectedCategory := refFilterValue s in
  let '(books, h) :=
    if negb (str_eqb selectedCategory (lit "All"))
    then (length h,
          h ++ [List.filter
                  (fun book => str_eqb (category (objs !!! book))
                                       selectedCategory)
                  (refLoad h books)])
    else (books, h) in
  let sortOrder := refSortOrderAttr s in
  let h :=
    if truthy sortOrder
    then <[books := Array_sort
                      (fun a b => compareTitles toUpperCase sortOrder
                                    (objs !!! a) (objs !!! b))
                      (refLoad h books)]> h
    else h in
  (books, mkRefState objs h (refBookData s) sortOrder selectedCategory).

(** What a caller can do to an array it holds: any write to the array
    itself (an element assignment, [push], [splice], [sort], [length = 0])
    leaves some array of references at its location. *)
Definition setArray (books : loc) (v : list nat) (s : RefState) : RefState :=
  mkRefState (objects s) (<[books := v]> (refHeap s)) (refBookData s)
             (refSortOrderAttr s) (refFilterValue s).

(** [books[i].title = v]: a write to a field of the record the element
    refers to. Without an element at [i] the assignment throws and nothing
    is written. *)
Definition setElementTitle (books : loc) (i : nat) (v : jsstring)
    (s : RefState) : RefState :=
  match refLoad (refHeap s) books !! i with
  | Some r =>
      let o := objects s !!! r in
      mkRefState (<[r := mkBook v (author o) (category o) (imageUrl o)]>
                    (objects s))
                 (refHeap s) (refBookData s) (refSortOrderAttr s)
                 (refFilterValue s)
  | None => s
  end.

(** The state by value that a state by reference stands for. *)
Definition values (s : RefState) : State :=
  mkState (map (map (fun r => objects s !!! r)) (refHeap s))
          (refBookData s) (refSortOrderAttr s) [] (refFilterValue s) [] [].

(** Two records, the store being the only array. *)
Definition two_books : RefState :=
  mkRefState
    [ mkBook (lit "Dune") (lit "Frank Herbert") (lit "Technical")
             DEFAULT_IMAGE_URL;
      mkBook (lit "Clean Code") (lit "Robert Martin") (lit "Technical")
             DEFAULT_IMAGE_URL ]
    [[0; 1]%nat] 0%nat (Some (lit "asc")) (lit "All").

(** * Properties *)

(** ** The heap of arrays *)

Lemma load_alloc_new h v : load (snd (alloc h v)) (fst (alloc h v)) = v.
Proof.
  unfold load, alloc; simpl.
  rewrite lookup_app_r by lia.
  by rewrite Nat.sub_diag.
Qed.

Lemma load_alloc_new' (h : list (list Book)) v : load (h ++ [v]) (length h) = v.
Proof. apply (load_alloc_new h v). Qed.

Lemma load_insert_eq (h : list (list Book)) (l : loc) v :
  (l < length h)%nat -> load (<[l := v]> h) l = v.
Proof. intros Hl. unfold load. by rewrite list_lookup_insert_eq. Qed.

Lemma load_insert_ne (h : list (list Book)) (l l' : loc) v :
  l <> l' -> load (<[l := v]> h) l' = load h l'.
Proof. intros Hl. unfold load. by rewrite list_lookup_insert_ne. Qed.

Section ScriptFacts.
Variable toUpperCase : jsstring -> jsstring.

Local Abbreviation compareTitles := (compareTitles toUpperCase).
Local Abbreviation sorted := (sorted toUpperCase).
Local Abbreviation getProcessedBooks := (getProcessedBooks toUpperCase).
Local Abbreviation projection := (projection toUpperCase).
Local Abbreviation updateDisplay := (updateDisplay toUpperCase).
Local Abbreviation handleAddBook := (handleAddBook toUpperCase).
Local Abbreviation handleSort := (handleSort toUpperCase).
Local Abbreviation deleteMatching := (deleteMatching toUpperCase).
Local Abbreviation handleDelete := (handleDelete toUpperCase).
Local Abbreviation step := (step toUpperCase).
Local Abbreviation run := (run toUpperCase).

(** [getProcessedBooks] returns a new array holding the filtered and
    sorted records and leaves every array that existed in place. *)
Lemma getProcessedBooks_spec s :
  let '(books, s') := getProcessedBooks s in
  (length (heap s) <= books < length (heap s'))%nat
  /\ load (heap s') books = sorted (sortOrderAttr s) (filtered s)
  /\ (forall l : loc, (l < length (heap s))%nat -> heap s' !! l = heap s !! l)
  /\ s' = set_heap (heap s') s.
Proof.
  unfold getProcessedBooks, filtered, sorted, store, alloc.
  rewrite (load_alloc_new' (heap s)).
  set (h0 := heap s). set (v0 := load h0 (bookData s)).
  assert (Hold1 : forall l : loc, (l < length h0)%nat ->
                                  (h0 ++ [v0]) !! l = h0 !! l).
  { intros l Hl. by rewrite lookup_app_l. }
  assert (Hlen1 : length (h0 ++ [v0]) = S (length h0)).
  { rewrite length_app. simpl. lia. }
  destruct (negb (str_eqb (filterValue s) (lit "All"))).
  - rewrite load_alloc_new'.
    set (h1 := h0 ++ [v0]) in *. set (v1 := filterBooks (filterValue s) v0).
    assert (Hold2 : forall l : loc, (l < length h0)%nat ->
                                    (h1 ++ [v1]) !! l = h0 !! l).
    { intros l Hl. rewrite lookup_app_l by lia. auto. }
    assert (Hlen2 : length (h1 ++ [v1]) = S (length h1)).
    { rewrite length_app. simpl. lia. }
    destruct (truthy (sortOrderAttr s)); simpl.
    + rewrite length_insert. split; [lia|].
      split; [apply load_insert_eq; lia|].
      split; [|done].
      intros l Hl. rewrite list_lookup_insert_ne by lia. auto.
    + split; [lia|]. split; [apply load_alloc_new'|]. by split.
  - destruct (truthy (sortOrderAttr s)); simpl.
    + rewrite length_insert, load_alloc_new'. split; [lia|].
      split; [apply load_insert_eq; lia|].
      split; [|done].
      intros l Hl. rewrite list_lookup_insert_ne by lia. auto.
    + split; [lia|]. split; [apply load_alloc_new'|]. by split.
Qed.

Lemma projection_eq s :
  projection s = sorted (sortOrderAttr s) (filtered s).
Proof.
  unfold projection. pose proof (getProcessedBooks_spec s) as H.
  destruct (getProcessedBooks s) as [books s']. tauto.
Qed.

(** [updateDisplay] redraws the grid from the projection; the store, the
    button and the filter stay as they are. *)
Lemma updateDisplay_spec s :
  wf s ->
  let s' := updateDisplay s in
  wf s' /\ store s' = store s
  /\ bookGrid s' = renderBooks (projection s)
  /\ sortOrderAttr s' = sortOrderAttr s /\ sortText s' = sortText s
  /\ filterValue s' = filterValue s /\ console s' = console s
  /\ bookData s' = bookData s.
Proof.
  intros Hwf. unfold updateDisplay, projection.
  pose proof (getProcessedBooks_spec s) as H.
  destruct (getProcessedBooks s) as [books s1].
  destruct H as (Hb & Hload & Hold & Hs1). simpl.
  rewrite Hs1. unfold wf, store, load in *. simpl.
  rewrite (Hold _ Hwf). repeat split; try done. lia.
Qed.
End ScriptFacts.

(** ** The order on strings *)

Lemma str_compare_refl a : str_compare a a = Eq.
Proof. induction a as [|x a IH]; simpl; [done|]. by rewrite N.compare_refl. Qed.

Lemma str_compare_eq a b : str_compare a b = Eq -> a = b.
Proof.
  revert b. induction a as [|x a IH]; intros [|y b]; simpl; try done.
  destruct (N.compare_spec x y) as [->| |]; try done.
  intros H. f_equal. by apply IH.
Qed.

Lemma str_compare_antisym a b : str_compare b a = CompOpp (str_compare a b).
Proof.
  revert b. induction a as [|x a IH]; intros [|y b]; simpl; try done.
  rewrite (N.compare_antisym x y).
  destruct (N.compare x y); simpl; auto.
Qed.

Lemma str_compare_lt_trans a b c :
  str_compare a b = Lt -> str_compare b c = Lt -> str_compare a c = Lt.
Proof.
  revert b c. induction a as [|x a IH]; intros [|y b] [|z c]; simpl; try done.
  destruct (N.compare_spec x y) as [->|Hxy|Hxy]; try done.
  - destruct (N.compare_spec y z) as [->|Hyz|Hyz]; try done. apply IH.
  - intros _. destruct (N.compare_spec y z) as [->|Hyz|Hyz]; try done.
    + intros _. by apply N.compare_lt_iff in Hxy as ->.
    + intros _. assert (x < z) as ->%N.compare_lt_iff by lia. done.
Qed.

Lemma str_le_total a b : str_le a b \/ str_le b a.
Proof.
  unfold str_le. rewrite (str_compare_antisym a b).
  destruct (str_compare a b); simpl; auto.
Qed.

Lemma str_le_antisym a b : str_le a b -> str_le b a -> a = b.
Proof.
  unfold str_le. rewrite (str_compare_antisym a b).
  destruct (str_compare a b) eqn:E; simpl; try done.
  intros _ _. by apply str_compare_eq.
Qed.

Lemma str_le_trans a b c : str_le a b -> str_le b c -> str_le a c.
Proof.
  unfold str_le. intros Hab Hbc.
  destruct (str_compare a b) eqn:E1; try done.
  - by apply str_compare_eq in E1 as ->.
  - destruct (str_compare b c) eqn:E2; try done.
    + by apply str_compare_eq in E2 as <-; rewrite E1.
    + by rewrite (str_compare_lt_trans _ _ _ E1 E2).
Qed.

(** ** The stable sort *)

Lemma StronglySorted_mono {A} (R1 R2 : A -> A -> Prop) l :
  (forall a b, R1 a b -> R2 a b) -> StronglySorted R1 l -> StronglySorted R2 l.
Proof.
  intros HR. induction 1 as [|x l Hl IH Hx]; constructor; [done|].
  eapply Forall_impl; [exact Hx|]. intros y. apply HR.
Qed.

Section ArraySortFacts.
Context {A K : Type} `{EqDecision K}.
Variable comparefn : A -> A -> Z.
Variable key : A -> K.

Local Abbreviation before := (fun a b => (comparefn a b <= 0)%Z).

Hypothesis before_total : forall a b, before a b \/ before b a.
Hypothesis before_trans : forall a b c, before a b -> before b c -> before a c.
Hypothesis before_key : forall a b, key a = key b -> before a b.
Hypothesis key_before : forall a b, before a b -> before b a -> key a = key b.

Lemma sort_insert_perm x l : sort_insert comparefn x l ≡ₚ x :: l.
Proof.
  induction l as [|y l IH]; simpl; [done|].
  destruct (comparefn x y <=? 0)%Z; [done|].
  rewrite IH. apply Permutation_swap.
Qed.

Lemma Array_sort_perm l : Array_sort comparefn l ≡ₚ l.
Proof.
  induction l as [|x l IH]; simpl; [done|].
  rewrite sort_insert_perm. by rewrite IH.
Qed.

Lemma sort_insert_sorted x l :
  StronglySorted before l -> StronglySorted before (sort_insert comparefn x l).
Proof.
  induction 1 as [|y l Hl IH Hy]; simpl.
  - repeat constructor.
  - destruct (Z.leb_spec (comparefn x y) 0) as [Hxy|Hxy].
    + constructor; [by constructor|].
      constructor; [done|].
      eapply Forall_impl; [exact Hy|]. intros z Hz. by eapply before_trans.
    + constructor; [done|].
      rewrite sort_insert_perm. constructor; [|done].
      destruct (before_total x y); [lia|done].
Qed.

Lemma Array_sort_sorted l : StronglySorted before (Array_sort comparefn l).
Proof.
  induction l as [|x l IH]; simpl; [constructor|].
  by apply sort_insert_sorted.
Qed.

Lemma sort_insert_stable k x l :
  filter (fun a => key a = k) (sort_insert comparefn x l)
  = filter (fun a => key a = k) (x :: l).
Proof.
  induction l as [|y l IH]; simpl; [done|].
  destruct (Z.leb_spec (comparefn x y) 0) as [Hxy|Hxy]; [done|].
  rewrite filter_cons, IH, !filter_cons.
  assert (key x <> key y) by (intros E; apply before_key in E; lia).
  repeat case_decide; congruence.
Qed.

Lemma Array_sort_stable k l :
  filter (fun a => key a = k) (Array_sort comparefn l)
  = filter (fun a => key a = k) l.
Proof.
  induction l as [|x l IH]; simpl; [done|].
  rewrite sort_insert_stable, !filter_cons. by rewrite IH.
Qed.

(** Two sorted arrangements with the same records under every key, in
    the same order, are one and the same list. *)
Lemma sorted_stable_unique l1 l2 :
  StronglySorted before l1 -> StronglySorted before l2 ->
  (forall k, filter (fun a => key a = k) l1 = filter (fun a => key a = k) l2) ->
  l1 = l2.
Proof.
  intros H1. revert l2.
  induction H1 as [|x l1 Hl1 IH Hx]; intros l2 H2 Hf.
  - destruct l2 as [|y l2]; [done|].
    specialize (Hf (key y)). rewrite filter_cons_True in Hf by done. done.
  - destruct H2 as [|y l2 Hl2 Hy].
    { specialize (Hf (key x)). rewrite filter_cons_True in Hf by done. done. }
    assert (Hk : key x = key y).
    { destruct (decide (key x = key y)) as [|Hne]; [done|].
      apply key_before.
      - pose proof (Hf (key y)) as Hfy.
        rewrite filter_cons_False in Hfy by done.
        rewrite (filter_cons_True _ y) in Hfy by done.
        assert (y ∈ filter (fun a => key a = key y) l1) as Hin
            by (rewrite Hfy; left).
        apply list_elem_of_filter in Hin as [_ Hin].
        by eapply Forall_forall in Hx.
      - pose proof (Hf (key x)) as Hfx.
        rewrite filter_cons_True in Hfx by done.
        rewrite (filter_cons_False _ y) in Hfx by done.
        assert (x ∈ filter (fun a => key a = key x) l2) as Hin
            by (rewrite <- Hfx; left).
        apply list_elem_of_filter in Hin as [_ Hin].
        by eapply Forall_forall in Hy. }
    assert (x = y) as <-.
    { pose proof (Hf (key x)) as Hfx.
      rewrite filter_cons_True in Hfx by done.
      rewrite (filter_cons_True _ y) in Hfx by done. congruence. }
    f_equal. apply IH; [done|]. intros k. specialize (Hf k).
    rewrite !filter_cons in Hf. case_decide; congruence.
Qed.

(** Whatever algorithm sorts the array, a stable sorted arrangement of
    [l] is [Array_sort l]. *)
Lemma sort_unique l l' :
  StronglySorted before l' ->
  (forall k, filter (fun a => key a = k) l' = filter (fun a => key a = k) l) ->
  l' = Array_sort comparefn l.
Proof.
  intros Hs Hf. apply sorted_stable_unique; [done|apply Array_sort_sorted|].
  intros k. by rewrite Hf, Array_sort_stable.
Qed.
End ArraySortFacts.

(** ** White space and [trim] *)

(** A string that does not start with white space. *)
Lemma trimStart_head s :
  match trimStart s with [] => True | c :: _ => isWhiteSpace c = false end.
Proof.
  induction s as [|c s IH]; simpl; [done|].
  destruct (isWhiteSpace c) eqn:E; [done|]. simpl. done.
Qed.

Lemma trimStart_fix s :
  match s with [] => True | c :: _ => isWhiteSpace c = false end ->
  trimStart s = s.
Proof. destruct s as [|c s]; simpl; [done|]. by intros ->. Qed.

Lemma trimStart_idem s : trimStart (trimStart s) = trimStart s.
Proof. apply trimStart_fix, trimStart_head. Qed.

Lemma trimStart_suffix s :
  exists w, s = w ++ trimStart s /\ forallb isWhiteSpace w = true.
Proof.
  induction s as [|c s (w & Hs & Hw)]; simpl; [by exists []|].
  destruct (isWhiteSpace c) eqn:E.
  - exists (c :: w). simpl. rewrite E, Hw. split; [by f_equal|done].
  - by exists [].
Qed.

Lemma trimStart_nil s : trimStart s = [] <-> forallb isWhiteSpace s = true.
Proof.
  induction s as [|c s IH]; simpl; [done|].
  destruct (isWhiteSpace c); simpl; [done|]. split; done.
Qed.

Lemma forallb_reverse (p : N -> bool) s :
  forallb p (reverse s) = forallb p s.
Proof.
  induction s as [|c s IH]; simpl; [done|].
  rewrite reverse_cons, forallb_app, IH. simpl. destruct (p c), (forallb p s); done.
Qed.

Lemma trimEnd_prefix s :
  exists w, s = trimEnd s ++ w /\ forallb isWhiteSpace w = true.
Proof.
  unfold trimEnd. destruct (trimStart_suffix (reverse s)) as (w & Hs & Hw).
  exists (reverse w). split; [|by rewrite forallb_reverse].
  rewrite <- reverse_app, <- Hs. by rewrite reverse_involutive.
Qed.

Lemma trimEnd_idem s : trimEnd (trimEnd s) = trimEnd s.
Proof. unfold trimEnd. by rewrite reverse_involutive, trimStart_idem. Qed.

Lemma trimEnd_nil s : trimEnd s = [] <-> forallb isWhiteSpace s = true.
Proof.
  unfold trimEnd. rewrite <- (forallb_reverse _ s), <- trimStart_nil.
  split; [|by intros ->].
  intros H. apply (f_equal reverse) in H. by rewrite reverse_involutive in H.
Qed.

Lemma trim_head s :
  match trim s with [] => True | c :: _ => isWhiteSpace c = false end.
Proof.
  unfold trim. pose proof (trimStart_head s) as Hh.
  destruct (trimEnd_prefix (trimStart s)) as (w & Hs & _).
  destruct (trimEnd (trimStart s)) as [|c u]; [done|].
  rewrite Hs in Hh. exact Hh.
Qed.

(** Trimming a trimmed string changes nothing. *)
Lemma trim_idem s : trim (trim s) = trim s.
Proof.
  unfold trim at 1. rewrite (trimStart_fix (trim s)) by apply trim_head.
  unfold trim. apply trimEnd_idem.
Qed.

(** The trimmed string is empty exactly when every code unit is white
    space. *)
Lemma trim_nil s : trim s = [] <-> forallb isWhiteSpace s = true.
Proof.
  unfold trim. rewrite trimEnd_nil. split.
  - intros H. apply trimStart_nil.
    pose proof (trimStart_head s) as Hh.
    destruct (trimStart s) as [|c u]; [done|].
    simpl in H. by rewrite Hh in H.
  - intros H. apply trimStart_nil in H. by rewrite H.
Qed.

(** ** What [trim] keeps *)

Lemma trim_ends s :
  (forall c, head (trim s) = Some c -> isWhiteSpace c = false)
  /\ (forall c, last (trim s) = Some c -> isWhiteSpace c = false).
Proof.
  split; intros c Hc.
  - pose proof (trim_head s) as H. destruct (trim s) as [|x u]; [done|].
    by injection Hc as <-.
  - assert (Hr : reverse (trim s) = trimStart (reverse (trimStart s))).
    { unfold trim, trimEnd. by rewrite reverse_involutive. }
    pose proof (trimStart_head (reverse (trimStart s))) as H.
    rewrite <- Hr in H. rewrite <- head_reverse in Hc.
    destruct (reverse (trim s)) as [|x u]; [done|]. by injection Hc as <-.
Qed.

Lemma trim_decompose s :
  exists w1 w2, s = w1 ++ trim s ++ w2
                /\ forallb isWhiteSpace w1 = true
                /\ forallb isWhiteSpace w2 = true.
Proof.
  destruct (trimStart_suffix s) as (w1 & Hs & Hw1).
  destruct (trimEnd_prefix (trimStart s)) as (w2 & Hs2 & Hw2).
  exists w1, w2. unfold trim. by rewrite <- Hs2.
Qed.

Example trim_both_ends : trim (lit "  Clean Code ") = lit "Clean Code".
Proof. reflexivity. Qed.

Example trim_inner_space_kept : trim ([9; 160] ++ lit "a  b" ++ [8232]) = lit "a  b".
Proof. reflexivity. Qed.

Example trim_blank : trim (lit "   ") = [].
Proof. reflexivity. Qed.

(** ** Reading a card back *)

Lemma startsWith_app pat s : startsWith pat (pat ++ s) = true.
Proof.
  induction pat as [|p pat IH]; simpl; [done|]. by rewrite N.eqb_refl, IH.
Qed.

Lemma replace_prefix pat rep s : replace pat rep (pat ++ s) = rep ++ s.
Proof.
  destruct (pat ++ s) eqn:E; simpl; rewrite <- E, startsWith_app;
    by rewrite drop_app_length.
Qed.

(** The author a rendered card gives back is the record's author. *)
Lemma card_author_roundtrip a :
  replace (lit "Author: ") [] (lit "Author: " ++ a) = a.
Proof. apply replace_prefix. Qed.

(** ** The comparator *)

Section ComparatorFacts.
Variable toUpperCase : jsstring -> jsstring.

Local Abbreviation compareTitles := (compareTitles toUpperCase).
Local Abbreviation up := (fun b : Book => toUpperCase (title b)).

Lemma compareTitles_zero o a b : compareTitles o a b = 0%Z <-> up a = up b.
Proof.
  unfold compareTitles, str_ltb, str_gtb. split.
  - destruct (str_compare (up a) (up b)) eqn:E;
      [intros _; by apply str_compare_eq|destruct (is_asc o); done..].
  - intros ->. by rewrite str_compare_refl.
Qed.

Lemma compareTitles_before o a b :
  (compareTitles o a b <= 0)%Z <->
  if is_asc o then str_le (up a) (up b) else str_le (up b) (up a).
Proof.
  unfold compareTitles, str_ltb, str_gtb, str_le.
  rewrite (str_compare_antisym (up a) (up b)).
  destruct (str_compare (up a) (up b)), (is_asc o); simpl; split; (done || lia).
Qed.

Lemma compareTitles_total o a b :
  (compareTitles o a b <= 0)%Z \/ (compareTitles o b a <= 0)%Z.
Proof.
  rewrite !compareTitles_before.
  destruct (is_asc o), (str_le_total (up a) (up b)); auto.
Qed.

Lemma compareTitles_trans o a b c :
  (compareTitles o a b <= 0)%Z -> (compareTitles o b c <= 0)%Z ->
  (compareTitles o a c <= 0)%Z.
Proof.
  rewrite !compareTitles_before.
  destruct (is_asc o); eauto using str_le_trans.
Qed.

Lemma compareTitles_key o a b :
  up a = up b -> (compareTitles o a b <= 0)%Z.
Proof. intros H. apply compareTitles_zero with (o := o) in H. lia. Qed.

Lemma compareTitles_antisym o a b :
  (compareTitles o a b <= 0)%Z -> (compareTitles o b a <= 0)%Z -> up a = up b.
Proof.
  rewrite !compareTitles_before.
  destruct (is_asc o); intros; by apply str_le_antisym.
Qed.

(** With a sort order other than "asc" the comparator is the ascending
    one with its sign changed. *)
Lemma compareTitles_reverse o a b :
  is_asc o = false ->
  compareTitles o a b = (- compareTitles (Some (lit "asc")) a b)%Z.
Proof.
  intros Ho. unfold compareTitles. rewrite Ho.
  change (is_asc (Some (lit "asc"))) with true.
  destruct (str_ltb (up a) (up b)), (str_gtb (up a) (up b)); done.
Qed.

(** The array [sort] leaves is the only arrangement of [l] that is ordered
    by the comparator and keeps records of equal upper-cased title in their
    order. *)
Lemma Array_sort_titles_unique o l l' :
  StronglySorted (fun a b => (compareTitles o a b <= 0)%Z) l' ->
  (forall k, filter (fun b => up b = k) l' = filter (fun b => up b = k) l) ->
  l' = Array_sort (compareTitles o) l.
Proof.
  apply sort_unique;
    eauto using compareTitles_total, compareTitles_trans, compareTitles_key,
                compareTitles_antisym.
Qed.

Lemma sorted_perm o l : sorted toUpperCase o l ≡ₚ l.
Proof.
  unfold sorted. destruct (truthy o); [apply Array_sort_perm|done].
Qed.
End ComparatorFacts.

Lemma filterBooks_filter c l :
  filterBooks c l = filter (fun b => category b = c) l.
Proof.
  unfold filterBooks, str_eqb. induction l as [|b l IH]; simpl; [done|].
  rewrite filter_cons, IH. case_bool_decide; case_decide; done.
Qed.

(** ** The handlers *)

Section HandlerFacts.
Variable toUpperCase : jsstring -> jsstring.

Local Abbreviation projection := (projection toUpperCase).
Local Abbreviation updateDisplay := (updateDisplay toUpperCase).
Local Abbreviation handleAddBook := (handleAddBook toUpperCase).
Local Abbreviation handleSort := (handleSort toUpperCase).
Local Abbreviation deleteMatching := (deleteMatching toUpperCase).
Local Abbreviation handleDelete := (handleDelete toUpperCase).
Local Abbreviation step := (step toUpperCase).
Local Abbreviation run := (run toUpperCase).

(** [updateDisplay] never writes the button or the filter. *)
Lemma updateDisplay_controls s :
  sortOrderAttr (updateDisplay s) = sortOrderAttr s
  /\ sortText (updateDisplay s) = sortText s
  /\ filterValue (updateDisplay s) = filterValue s.
Proof.
  unfold updateDisplay.
  pose proof (getProcessedBooks_spec toUpperCase s) as H.
  destruct (getProcessedBooks toUpperCase s) as [books s1].
  destruct H as (_ & _ & _ & ->). done.
Qed.

Lemma handleAddBook_spec t a c s :
  wf s ->
  let s' := handleAddBook t a c s in
  wf s'
  /\ store s' = store s ++ [mkBook (trim t) (trim a) c DEFAULT_IMAGE_URL]
  /\ bookGrid s' = renderBooks (projection s')
  /\ sortOrderAttr s' = sortOrderAttr s /\ sortText s' = sortText s
  /\ filterValue s' = filterValue s.
Proof.
  intros Hwf. unfold handleAddBook.
  set (b := mkBook _ _ _ _).
  set (s1 := set_heap _ s).
  assert (Hwf1 : wf s1) by (unfold wf, s1; simpl; by rewrite length_insert).
  assert (Hst : store s1 = store s ++ [b]).
  { unfold store, s1; simpl. by rewrite load_insert_eq. }
  destruct (updateDisplay_spec toUpperCase s1 Hwf1)
    as (Hwf' & Hs & Hg & Ho & Ht & Hf & Hc & Hb).
  simpl. rewrite Hs, Hst, Hg, Ho, Ht, Hf. repeat split; try done.
  rewrite !projection_eq. unfold filtered.
  by rewrite Hs, Ho, Hf.
Qed.

Lemma handleSort_controls s :
  sortOrderAttr (handleSort s)
  = Some (if is_asc (sortOrderAttr s) then lit "desc" else lit "asc")
  /\ sortText (handleSort s)
     = (if is_asc (sortOrderAttr s) then label_ZA else label_AZ)
  /\ filterValue (handleSort s) = filterValue s.
Proof.
  unfold handleSort.
  destruct (is_asc (sortOrderAttr s));
    match goal with |- context [updateDisplay ?x] =>
      destruct (updateDisplay_controls x) as (-> & -> & ->) end; done.
Qed.

Lemma handleSort_store s :
  wf s -> wf (handleSort s) /\ store (handleSort s) = store s
          /\ bookGrid (handleSort s) = renderBooks (projection (handleSort s)).
Proof.
  intros Hwf. unfold handleSort.
  destruct (is_asc (sortOrderAttr s));
    match goal with |- context [updateDisplay ?x] =>
      destruct (updateDisplay_spec toUpperCase x Hwf)
        as (Hwf' & Hs & Hg & Ho & Ht & Hf & Hc & Hb) end;
    rewrite Hs, Hg, !projection_eq; unfold filtered; rewrite Hs, Ho, Hf; done.
Qed.

Lemma changeFilter_spec v s :
  wf s ->
  let s' := updateDisplay (set_filterValue v s) in
  wf s' /\ store s' = store s /\ filterValue s' = v
  /\ sortOrderAttr s' = sortOrderAttr s /\ sortText s' = sortText s
  /\ bookGrid s' = renderBooks (projection s').
Proof.
  intros Hwf.
  destruct (updateDisplay_spec toUpperCase (set_filterValue v s) Hwf)
    as (Hwf' & Hs & Hg & Ho & Ht & Hf & Hc & Hb).
  simpl. rewrite Hg, !projection_eq. unfold filtered. rewrite Hs, Ho, Hf.
  repeat split; done.
Qed.

(** The delete path: the first record with the given title and author
    leaves the store; without such a record nothing at all happens. *)
Lemma deleteMatching_spec t a s :
  wf s ->
  let hit := fun b : Book => title b = t /\ author b = a in
  let s' := deleteMatching t a s in
  (exists l1 b l2,
      store s = l1 ++ b :: l2 /\ hit b /\ Forall (fun x => ~ hit x) l1
      /\ store s' = l1 ++ l2 /\ wf s'
      /\ bookGrid s' = renderBooks (projection s')
      /\ sortOrderAttr s' = sortOrderAttr s /\ sortText s' = sortText s
      /\ filterValue s' = filterValue s)
  \/ (Forall (fun x => ~ hit x) (store s) /\ s' = s).
Proof.
  intros Hwf hit. unfold deleteMatching, findIndex. fold (store s).
  set (P := fun book : Book =>
              str_eqb (title book) t && str_eqb (author book) a = true).
  assert (HP : forall b, P b <-> hit b).
  { intros b. unfold P, hit, str_eqb.
    rewrite andb_true_iff, !bool_decide_eq_true. done. }
  destruct (list_find P (store s)) as [[i b]|] eqn:E; simpl.
  - left. apply list_find_Some in E as (Hi & Hb & Hbefore).
    exists (take i (store s)), b, (drop (S i) (store s)).
    set (s1 := set_heap _ s).
    assert (Hwf1 : wf s1) by (unfold wf, s1; simpl; by rewrite length_insert).
    assert (Hst : store s1 = take i (store s) ++ drop (S i) (store s)).
    { unfold store at 1, s1; simpl. rewrite load_insert_eq by done.
      apply delete_take_drop. }
    destruct (updateDisplay_spec toUpperCase s1 Hwf1)
      as (Hwf' & Hs & Hg & Ho & Ht & Hf & Hc & Hbd).
    split; [by rewrite take_drop_middle|].
    split; [by apply HP|].
    split.
    { apply Forall_lookup. intros j y Hj.
      apply lookup_take_Some in Hj as [Hj Hlt].
      rewrite <- HP. by eapply Hbefore. }
    unfold store, wf, projection in *; simpl in *.
    rewrite Hs, Hst, Hg, Ho, Ht, Hf. repeat split; try done.
    pose proof (projection_eq toUpperCase) as Hpe. unfold projection in Hpe.
    rewrite !Hpe. unfold filtered, store; simpl. by rewrite Hs, Ho, Hf.
  - right. split; [|done].
    apply list_find_None in E. eapply Forall_impl; [exact E|].
    intros x Hx Hh. by apply Hx, HP.
Qed.
End HandlerFacts.

(** ** Runs of the page *)

Lemma renderBooks_imgSrc d l :
  Forall (fun b => imageUrl b = d) l ->
  Forall (fun c => imgSrc c = d) (renderBooks l).
Proof.
  intros H. apply Forall_lookup. intros i c Hc. unfold renderBooks in Hc.
  rewrite list_lookup_imap in Hc.
  destruct (l !! i) as [b|] eqn:E; simplify_eq/=.
  by eapply Forall_lookup in H.
Qed.

Section RunFacts.
Variable toUpperCase : jsstring -> jsstring.

Local Abbreviation projection := (projection toUpperCase).
Local Abbreviation step := (step toUpperCase).
Local Abbreviation run := (run toUpperCase).

(** The projection only holds records of the store. *)
Lemma projection_in_store s b : b ∈ projection s -> b ∈ store s.
Proof.
  rewrite projection_eq, sorted_perm. unfold filtered.
  destruct (negb _); [|done].
  rewrite filterBooks_filter, list_elem_of_filter. tauto.
Qed.

(** One event: the state stays well formed, every record of the store
    was there before or is the record the add handler has just built, and
    the grid is either untouched or redrawn from the projection. *)
Lemma step_spec s e :
  wf s ->
  wf (step s e)
  /\ (forall b, b ∈ store (step s e) ->
        b ∈ store s
        \/ exists t a c, e = Submit t a c
                         /\ b = mkBook (trim t) (trim a) c DEFAULT_IMAGE_URL)
  /\ (bookGrid (step s e) = bookGrid s
      \/ bookGrid (step s e) = renderBooks (projection (step s e))).
Proof.
  intros Hwf. destruct e as [t a c| |v|i]; simpl.
  - destruct (requiredFilled t a c); [|by auto].
    destruct (handleAddBook_spec toUpperCase t a c s Hwf)
      as (Hwf' & Hs & Hg & _).
    split; [done|]. split; [|by right].
    intros b. rewrite Hs, elem_of_app, list_elem_of_singleton.
    intros [?| ->]; [by left|right; eauto].
  - destruct (handleSort_store toUpperCase s Hwf) as (Hwf' & Hs & Hg).
    rewrite Hs. auto.
  - destruct (changeFilter_spec toUpperCase v s Hwf)
      as (Hwf' & Hs & _ & _ & _ & Hg).
    rewrite Hs. auto.
  - destruct (bookGrid s !! i) as [card|]; [|by auto].
    unfold handleDelete.
    destruct (deleteMatching_spec toUpperCase (h3 card)
                (replace (lit "Author: ") [] (pAuthor card)) s Hwf)
      as [(l1 & b & l2 & Hs & _ & _ & Hs' & Hwf' & Hg & _)|[_ Hsame]];
      [|rewrite Hsame; by auto].
    split; [done|]. split; [|by right].
    intros x. rewrite Hs', Hs, !elem_of_app, elem_of_cons. tauto.
Qed.

Lemma run_snoc s es e : run s (es ++ [e]) = step (run s es) e.
Proof. unfold run. by rewrite fold_left_app. Qed.

Lemma run_wf s es : wf s -> wf (run s es).
Proof.
  intros Hwf. induction es as [|e es IH] using rev_ind; [done|].
  rewrite run_snoc. by apply step_spec.
Qed.

(** A property of records that the add handler establishes holds of
    every record of the store, whatever happens on the page. *)
Lemma run_store_invariant (P : Book -> Prop) s es :
  (forall t a c, P (mkBook (trim t) (trim a) c DEFAULT_IMAGE_URL)) ->
  wf s -> Forall P (store s) -> Forall P (store (run s es)).
Proof.
  intros Hnew Hwf HP. induction es as [|e es IH] using rev_ind; [done|].
  rewrite run_snoc. apply Forall_forall. intros b Hb.
  apply step_spec in Hb as [Hb|(t & a & c & _ & ->)]; [|done|by apply run_wf].
  by eapply Forall_forall in IH.
Qed.

Lemma run_grid_invariant d s es :
  wf s ->
  (forall es', Forall (fun b => imageUrl b = d) (store (run s es'))) ->
  Forall (fun c => imgSrc c = d) (bookGrid s) ->
  Forall (fun c => imgSrc c = d) (bookGrid (run s es)).
Proof.
  intros Hwf Hall Hg. induction es as [|e es IH] using rev_ind; [done|].
  pose proof (Hall (es ++ [e])) as Hst. rewrite run_snoc in *.
  destruct (step_spec (run s es) e (run_wf s es Hwf)) as (_ & _ & [->| ->]);
    [done|].
  apply renderBooks_imgSrc, Forall_forall. intros b Hb.
  apply projection_in_store in Hb. by eapply Forall_forall in Hst.
Qed.
End RunFacts.

(** ** Plain text *)

Lemma plainText_trim t : plainText t = true -> plainText (trim t) = true.
Proof.
  destruct (trim_decompose t) as (w1 & w2 & Ht & _). unfold plainText.
  rewrite Ht at 1. rewrite !forallb_app, !andb_true_iff. tauto.
Qed.

Section PlainFacts.
Variable toUpperCase : jsstring -> jsstring.

(** Plain submissions keep the store plain. *)
Lemma run_plain s es :
  wf s -> forallb plainBook (store s) = true ->
  forallb plainEvent es = true ->
  forallb plainBook (store (run toUpperCase s es)) = true.
Proof.
  intros Hwf Hs Hes. induction es as [|e es IH] using rev_ind; [done|].
  rewrite forallb_app, andb_true_iff in Hes. destruct Hes as [Hes He].
  simpl in He. rewrite andb_true_r in He. specialize (IH Hes).
  rewrite run_snoc. apply forallb_forall. intros b Hb.
  apply list_elem_of_In, step_spec in Hb; [|by apply run_wf].
  destruct Hb as [Hb|(t & a & c & -> & ->)].
  - rewrite forallb_forall in IH. by apply IH, list_elem_of_In.
  - simpl in He. rewrite !andb_true_iff in He. destruct He as [[Ht Ha] Hc].
    unfold plainBook. simpl.
    by rewrite !plainText_trim, Hc.
Qed.

Lemma delete_plain (l1 l2 : list Book) b :
  forallb plainBook (l1 ++ b :: l2) = true ->
  forallb plainBook (l1 ++ l2) = true.
Proof.
  rewrite !forallb_app. simpl. rewrite !andb_true_iff. tauto.
Qed.
End PlainFacts.


(** Any sequence of records is the store of a well-formed state. *)
Lemma every_store_is_reachable_shape (l : list Book) :
  exists s, wf s /\ store s = l.
Proof.
  exists (mkState [l] 0%nat None [] (lit "All") [] []).
  split; [unfold wf; simpl; lia|reflexivity].
Qed.

Example upper_case_order :
  str_ltb (toUpperCaseLatin (lit "Calvin and Hobbes"))
          (toUpperCaseLatin (lit "clean code")) = true
  /\ str_ltb (lit "Calvin and Hobbes") (lit "Clean Code") = true
  /\ str_ltb (lit "Dune") (lit "clean code") = true
  /\ str_gtb (toUpperCaseLatin (lit "Dune"))
             (toUpperCaseLatin (lit "clean code")) = true.
Proof. repeat split. Qed.

(** Deleting "Dune" from a shelf that holds it twice removes the first
    copy and keeps the second. *)
Example delete_keeps_second_copy :
  map title (store twin_shelf) = [lit "Dune"; lit "Clean Code"; lit "Dune"]
  /\ map title
       (store (deleteMatching toUpperCaseLatin (lit "Dune")
                 (lit "Frank Herbert") twin_shelf))
     = [lit "Clean Code"; lit "Dune"].
Proof. split; reflexivity. Qed.

(** * The claims *)

(** ** C10: every cover is the default image *)

(** C10. Whatever events the page receives from an initial state, every
    record of the store has the default image URL as its cover, and so has
    every card of the grid; an event leaves in the store only records that
    were there before, unchanged, or the record the add handler has just
    built with that URL; the URL is not empty, so a record without an image
    never reaches the renderer. *)
Theorem default_cover_everywhere (toUpperCase : jsstring -> jsstring)
    (s0 : State) (es : list Event) :
  initial s0 ->
  let s := run toUpperCase s0 es in
  Forall (fun b => imageUrl b = DEFAULT_IMAGE_URL) (store s)
  /\ Forall (fun c => imgSrc c = DEFAULT_IMAGE_URL) (bookGrid s)
  /\ DEFAULT_IMAGE_URL <> []
  /\ forall e b, b ∈ store (step toUpperCase s e) ->
       b ∈ store s
       \/ exists t a c, e = Submit t a c
                        /\ b = mkBook (trim t) (trim a) c DEFAULT_IMAGE_URL.
Proof.
  intros (Hwf & Hst & Hg) s.
  assert (Hall : forall es',
             Forall (fun b => imageUrl b = DEFAULT_IMAGE_URL)
                    (store (run toUpperCase s0 es'))).
  { intros es'. apply run_store_invariant; [done|done|]. rewrite Hst. constructor. }
  split; [apply Hall|].
  split; [apply run_grid_invariant; [done|done|]; rewrite Hg; constructor|].
  split; [done|].
  intros e b Hb. apply step_spec in Hb; [done|]. by apply run_wf.
Qed.

Lemma default_cover_everywhere_witness :
  initial page0
  /\ Forall (fun b => imageUrl b = DEFAULT_IMAGE_URL)
            (store (run toUpperCaseLatin page0 three_adds))
  /\ Forall (fun c => imgSrc c = DEFAULT_IMAGE_URL)
            (bookGrid (run toUpperCaseLatin page0 three_adds)).
Proof.
  assert (H0 : initial page0).
  { split; [unfold wf; simpl; lia|]. split; reflexivity. }
  split; [exact H0|].
  destruct (default_cover_everywhere toUpperCaseLatin page0 three_adds H0)
    as (Hs & Hg & _).
  split; [exact Hs|exact Hg].
Defined.

(** ** C4: what the add handler stores *)

(** C4, as stated, fails: a title field holding one space passes the
    required-field constraint and the handler stores a record whose title
    is empty. *)
Lemma blank_title_is_stored :
  requiredFilled (lit " ") (lit "Frank Herbert") (lit "Technical") = true
  /\ store (step toUpperCaseLatin page0 blank_title_add)
     = [mkBook [] (lit "Frank Herbert") (lit "Technical") DEFAULT_IMAGE_URL]
  /\ ~ Forall (fun b => trim (title b) <> [] /\ trim (author b) <> [])
              (store (step toUpperCaseLatin page0 blank_title_add)).
Proof.
  split; [reflexivity|]. split; [reflexivity|].
  intros H. apply Forall_cons in H as [[H _] _]. by apply H.
Qed.

(** C4, amended. The add handler appends the record made of the trimmed
    title, the trimmed author, the category and the default cover, without
    looking at the trimmed values: a field is stored empty exactly when it
    held nothing but white space. Every title and author of the store is
    its own trim, whatever happens on the page. *)
Theorem add_stores_trimmed_fields (toUpperCase : jsstring -> jsstring)
    (s0 : State) (es : list Event) (t a c : jsstring) :
  initial s0 ->
  let s := run toUpperCase s0 es in
  store (handleAddBook toUpperCase t a c s)
  = store s ++ [mkBook (trim t) (trim a) c DEFAULT_IMAGE_URL]
  /\ (trim t = [] <-> forallb isWhiteSpace t = true)
  /\ (trim a = [] <-> forallb isWhiteSpace a = true)
  /\ Forall (fun b => trim (title b) = title b /\ trim (author b) = author b)
            (store s).
Proof.
  intros (Hwf & Hst & _) s.
  split; [apply handleAddBook_spec; by apply run_wf|].
  split; [apply trim_nil|]. split; [apply trim_nil|].
  apply run_store_invariant; [|done|rewrite Hst; constructor].
  intros t' a' c'. simpl. by rewrite !trim_idem.
Qed.

Lemma add_stores_trimmed_fields_witness :
  initial page0
  /\ store (handleAddBook toUpperCaseLatin (lit "  Dune ") (lit " ")
              (lit "Technical") (run toUpperCaseLatin page0 three_adds))
     = store (run toUpperCaseLatin page0 three_adds)
       ++ [mkBook (trim (lit "  Dune ")) (trim (lit " ")) (lit "Technical")
                  DEFAULT_IMAGE_URL].
Proof.
  assert (H0 : initial page0).
  { split; [unfold wf; simpl; lia|]. split; reflexivity. }
  split; [exact H0|].
  exact (proj1 (add_stores_trimmed_fields toUpperCaseLatin page0 three_adds
                  (lit "  Dune ") (lit " ") (lit "Technical") H0)).
Defined.

(** ** The sort button *)

Section SortButtonFacts.
Variable toUpperCase : jsstring -> jsstring.

Local Abbreviation step := (step toUpperCase).
Local Abbreviation run := (run toUpperCase).

(** Only a click on the sort button writes its attribute and its text. *)
Lemma step_sortButton s e :
  e <> ClickSort ->
  sortOrderAttr (step s e) = sortOrderAttr s
  /\ sortText (step s e) = sortText s.
Proof.
  intros He. destruct e as [t a c| |v|i]; simpl; [|done| |].
  - destruct (requiredFilled t a c); [|done]. unfold handleAddBook.
    match goal with |- context [updateDisplay _ ?x] =>
      destruct (updateDisplay_controls toUpperCase x) as (-> & -> & _) end.
    done.
  - destruct (updateDisplay_controls toUpperCase (set_filterValue v s))
      as (-> & -> & _). done.
  - destruct (bookGrid s !! i) as [card|]; [|done].
    unfold handleDelete, deleteMatching.
    destruct (findIndex _ _); [|done]. simpl.
    match goal with |- context [updateDisplay _ ?x] =>
      destruct (updateDisplay_controls toUpperCase x) as (-> & -> & _) end.
    done.
Qed.

Lemma toggled_stays_toggled s es :
  sortOrderAttr s = Some (lit "asc") \/ sortOrderAttr s = Some (lit "desc") ->
  sortOrderAttr (run s es) = Some (lit "asc")
  \/ sortOrderAttr (run s es) = Some (lit "desc").
Proof.
  intros Hs. induction es as [|e es IH] using rev_ind; [done|].
  rewrite run_snoc. destruct (decide (e = ClickSort)) as [->|He].
  - simpl. destruct (handleSort_controls toUpperCase (run s es)) as (-> & _).
    destruct (is_asc _); auto.
  - by destruct (step_sortButton (run s es) e He) as (-> & _).
Qed.

Lemma toggles_from_unset s n :
  sortOrderAttr s = None ->
  sortOrderAttr (run s (replicate (S n) ClickSort))
  = Some (if Nat.even n then lit "asc" else lit "desc").
Proof.
  intros Hs. induction n as [|n IH].
  - simpl. destruct (handleSort_controls toUpperCase s) as (-> & _).
    by rewrite Hs.
  - rewrite replicate_S_end, run_snoc.
    change (step ?x ClickSort) with (handleSort toUpperCase x).
    destruct (handleSort_controls toUpperCase
                (run s (replicate (S n) ClickSort))) as (-> & _).
    rewrite IH, Nat.even_succ, <- Nat.negb_even.
    by destruct (Nat.even n).
Qed.
End SortButtonFacts.

(** ** C9: the states of the sort toggle *)

(** C9. A click on the sort button moves the sort order to "desc" when it
    is "asc" and to "asc" otherwise, so from the unset state the first click
    gives "asc" and the clicks that follow alternate between "desc" and
    "asc"; once the page has seen one click, no sequence of events of any
    kind brings the order back to unset. *)
Theorem sort_toggle_state_machine (toUpperCase : jsstring -> jsstring)
    (s : State) :
  sortOrderAttr (handleSort toUpperCase s)
  = Some (if is_asc (sortOrderAttr s) then lit "desc" else lit "asc")
  /\ (forall n, sortOrderAttr s = None ->
        sortOrderAttr (run toUpperCase s (replicate (S n) ClickSort))
        = Some (if Nat.even n then lit "asc" else lit "desc"))
  /\ (forall es es',
        let s' := run toUpperCase s (es ++ ClickSort :: es') in
        (sortOrderAttr s' = Some (lit "asc")
         \/ sortOrderAttr s' = Some (lit "desc"))
        /\ sortOrderAttr s' <> None /\ truthy (sortOrderAttr s') = true).
Proof.
  split; [apply handleSort_controls|].
  split; [intros n Hs; by apply toggles_from_unset|].
  intros es es' s'.
  assert (H : sortOrderAttr s' = Some (lit "asc")
              \/ sortOrderAttr s' = Some (lit "desc")).
  { unfold s', run. rewrite fold_left_app. simpl.
    apply toggled_stays_toggled.
    destruct (handleSort_controls toUpperCase
                (fold_left (step toUpperCase) es s)) as (-> & _).
    destruct (is_asc _); auto. }
  split; [done|]. by destruct H as [-> | ->].
Qed.

Lemma sort_toggle_state_machine_witness :
  sortOrderAttr page0 = None
  /\ sortOrderAttr (run toUpperCaseLatin page0 (replicate 3 ClickSort))
     = Some (lit "asc")
  /\ sortOrderAttr (run toUpperCaseLatin page0 (replicate 2 ClickSort))
     = Some (lit "desc").
Proof.
  split; [reflexivity|].
  destruct (sort_toggle_state_machine toUpperCaseLatin page0) as (_ & H & _).
  split; [exact (H 2%nat eq_refl)|exact (H 1%nat eq_refl)].
Defined.

(** ** C2: the label of the sort button *)

(** C2, as stated, fails: after the first click the sort order is "asc"
    and the next click will sort from Z to A, yet the button reads
    "Sort by Title A → Z". *)
Lemma label_after_first_click :
  let s := handleSort toUpperCaseLatin page0 in
  sortOrderAttr s = Some (lit "asc")
  /\ sortOrderAttr (handleSort toUpperCaseLatin s) = Some (lit "desc")
  /\ sortText s = label_AZ
  /\ sortText s <> label_ZA.
Proof. repeat split; done. Qed.

(** C2, amended. After a click the label names the order the click has
    put in effect: it reads "Sort by Title A → Z" when the order before
    the click was "desc" or unset, the order now being "asc", and
    "Sort by Title Z → A" when the order before the click was "asc", the
    order now being "desc". *)
Theorem sort_label_names_applied_order (toUpperCase : jsstring -> jsstring)
    (s : State) :
  let s' := handleSort toUpperCase s in
  sortText s' = (if is_asc (sortOrderAttr s) then label_ZA else label_AZ)
  /\ sortOrderAttr s'
     = Some (if is_asc (sortOrderAttr s) then lit "desc" else lit "asc")
  /\ sortText s' = (if is_asc (sortOrderAttr s') then label_AZ else label_ZA).
Proof.
  destruct (handleSort_controls toUpperCase s) as (Ho & Ht & _).
  simpl. rewrite Ho, Ht. by destruct (is_asc (sortOrderAttr s)).
Qed.

(** ** C1: the run of section 8 *)

(** C1, as stated, fails: after the three additions, one click on the sort
    button and the deletion of "Clean Code", the filter is on "All" and the
    store holds two records, but the projection is not in insertion
    order. *)
Lemma projection_after_delete_is_sorted :
  filterValue shelf_after_delete = lit "All"
  /\ length (store shelf_after_delete) = 2%nat
  /\ map title (projection toUpperCaseLatin shelf_after_delete)
     <> [lit "Dune"; lit "Calvin and Hobbes"].
Proof. repeat split; done. Qed.

(** C1, amended. After that run the store holds exactly two records, "Dune"
    and "Calvin and Hobbes" in insertion order; the sort order is still
    "asc", and the unfiltered projection, like the grid, is "Calvin and
    Hobbes" followed by "Dune". *)
Theorem shelf_after_delete_run :
  store shelf_after_delete
  = [ mkBook (lit "Dune") (lit "Frank Herbert") (lit "Technical")
             DEFAULT_IMAGE_URL;
      mkBook (lit "Calvin and Hobbes") (lit "Bill Watterson") (lit "Comedy")
             DEFAULT_IMAGE_URL ]
  /\ map title (projection toUpperCaseLatin shelf_sorted)
     = [lit "Calvin and Hobbes"; lit "Clean Code"; lit "Dune"]
  /\ sortOrderAttr shelf_after_delete = Some (lit "asc")
  /\ filterValue shelf_after_delete = lit "All"
  /\ map title (projection toUpperCaseLatin shelf_after_delete)
     = [lit "Calvin and Hobbes"; lit "Dune"]
  /\ map h3 (bookGrid shelf_after_delete)
     = [lit "Calvin and Hobbes"; lit "Dune"].
Proof. repeat split; vm_compute; reflexivity. Qed.

(** ** C3: deleting by title and author *)

(** C3. In a well-formed state, deleting by a title and an author either
    removes the first record of the store that carries both, the records
    before and after it staying as they are and in their order, or, when no
    record carries both, returns the very same state; the handler is total,
    and the card of a record gives back that record's title and author. *)
Theorem delete_removes_first_match (toUpperCase : jsstring -> jsstring)
    (s : State) (t a : jsstring) :
  wf s ->
  let hit := fun b : Book => title b = t /\ author b = a in
  let s' := deleteMatching toUpperCase t a s in
  ((exists l1 b l2,
       store s = l1 ++ b :: l2 /\ hit b /\ Forall (fun x => ~ hit x) l1
       /\ store s' = l1 ++ l2
       /\ length (store s') = (length (store s) - 1)%nat)
   \/ (Forall (fun x => ~ hit x) (store s) /\ s' = s))
  /\ forall i src cat,
       handleDelete toUpperCase
         (mkCard i src t (lit "Author: " ++ a) cat) s = s'.
Proof.
  intros Hwf hit s'. split.
  - destruct (deleteMatching_spec toUpperCase t a s Hwf)
      as [(l1 & b & l2 & Hs & Hb & Hl1 & Hs' & _)|H]; [left|by right].
    exists l1, b, l2. repeat split; try done; try apply Hb.
    fold s' in Hs'. rewrite Hs', Hs, !length_app. simpl. lia.
  - intros i src cat. unfold handleDelete. cbn [h3 pAuthor].
    by rewrite card_author_roundtrip.
Qed.

Lemma delete_removes_first_match_witness :
  wf twin_shelf
  /\ let hit := fun b : Book =>
                  title b = lit "Dune" /\ author b = lit "Frank Herbert" in
     let s' := deleteMatching toUpperCaseLatin (lit "Dune")
                 (lit "Frank Herbert") twin_shelf in
     (exists l1 b l2,
         store twin_shelf = l1 ++ b :: l2 /\ hit b
         /\ Forall (fun x => ~ hit x) l1
         /\ store s' = l1 ++ l2
         /\ length (store s') = (length (store twin_shelf) - 1)%nat)
     \/ (Forall (fun x => ~ hit x) (store twin_shelf) /\ s' = twin_shelf).
Proof.
  assert (Hwf : wf twin_shelf) by (vm_compute; lia).
  split; [exact Hwf|].
  exact (proj1 (delete_removes_first_match toUpperCaseLatin twin_shelf
                  (lit "Dune") (lit "Frank Herbert") Hwf)).
Defined.

(** ** C5: sorting by title *)

(** C5. When the sort order is set, the projection is the filtered store
    rearranged by the upper-cased titles: it holds the same records; the
    records that share an upper-cased title come in the order the filtered
    store has them, the comparator answering 0 exactly on such pairs; with
    "asc" the upper-cased titles never decrease along the projection in the
    code-unit order, with any other order they never increase, the
    comparator being the ascending one with its sign changed. *)
Theorem projection_sorts_by_title (toUpperCase : jsstring -> jsstring)
    (s : State) :
  truthy (sortOrderAttr s) = true ->
  let up := fun b : Book => toUpperCase (title b) in
  let o := sortOrderAttr s in
  let out := projection toUpperCase s in
  out ≡ₚ filtered s
  /\ (forall k, filter (fun b => up b = k) out
                = filter (fun b => up b = k) (filtered s))
  /\ (forall a b, compareTitles toUpperCase o a b = 0%Z <-> up a = up b)
  /\ StronglySorted
       (fun a b => if is_asc o then str_le (up a) (up b)
                   else str_le (up b) (up a)) out
  /\ (is_asc o = false ->
      forall a b, compareTitles toUpperCase o a b
                  = (- compareTitles toUpperCase (Some (lit "asc")) a b)%Z).
Proof.
  intros Ho up o out. subst o out. rewrite projection_eq.
  unfold sorted. rewrite Ho.
  split; [apply Array_sort_perm|].
  split; [intros k; apply (Array_sort_stable _ up), compareTitles_key|].
  split; [apply compareTitles_zero|].
  split; [|intros Hd a b; by apply compareTitles_reverse].
  eapply StronglySorted_mono;
    [|apply Array_sort_sorted;
      [apply compareTitles_total|apply compareTitles_trans]].
  intros a b. apply compareTitles_before.
Qed.

Lemma projection_sorts_by_title_witness :
  truthy (sortOrderAttr shelf_sorted) = true
  /\ projection toUpperCaseLatin shelf_sorted ≡ₚ filtered shelf_sorted
  /\ StronglySorted
       (fun a b =>
          if is_asc (sortOrderAttr shelf_sorted)
          then str_le (toUpperCaseLatin (title a)) (toUpperCaseLatin (title b))
          else str_le (toUpperCaseLatin (title b)) (toUpperCaseLatin (title a)))
       (projection toUpperCaseLatin shelf_sorted).
Proof.
  split; [reflexivity|].
  destruct (projection_sorts_by_title toUpperCaseLatin shelf_sorted eq_refl)
    as (Hp & _ & _ & Hs & _).
  split; [exact Hp|exact Hs].
Defined.

(** ** C6: filtering by category *)

(** C6, as stated, fails: after one click on the sort button, the filter
    "Technical" projects "Clean Code" before "Dune", while the store holds
    "Dune" before "Clean Code". *)
Lemma sorted_filter_leaves_store_order :
  let s := step toUpperCaseLatin shelf_sorted (ChangeFilter (lit "Technical")) in
  filterValue s = lit "Technical"
  /\ map title (filter (fun b => category b = lit "Technical") (store s))
     = [lit "Dune"; lit "Clean Code"]
  /\ map title (projection toUpperCaseLatin s)
     = [lit "Clean Code"; lit "Dune"]
  /\ projection toUpperCaseLatin s
     <> filter (fun b => category b = lit "Technical") (store s).
Proof.
  split; [reflexivity|]. split; [vm_compute; reflexivity|].
  split; [vm_compute; reflexivity|].
  intros H. apply (f_equal (map title)) in H. vm_compute in H. discriminate.
Qed.

(** C6, amended. With a filter value other than "All" the projection holds
    exactly the records of the store whose category is that value: in the
    order of the store when no sort order is set, and in the order the
    stable sort by title gives them when one is set. With "All" the
    projection holds every record of the store. *)
Theorem filter_keeps_category (toUpperCase : jsstring -> jsstring)
    (s : State) :
  (filterValue s <> lit "All" ->
   let kept := filter (fun b => category b = filterValue s) (store s) in
   projection toUpperCase s ≡ₚ kept
   /\ (truthy (sortOrderAttr s) = false -> projection toUpperCase s = kept)
   /\ (truthy (sortOrderAttr s) = true ->
       projection toUpperCase s
       = Array_sort (compareTitles toUpperCase (sortOrderAttr s)) kept))
  /\ (filterValue s = lit "All" -> projection toUpperCase s ≡ₚ store s).
Proof.
  rewrite projection_eq. unfold filtered, str_eqb. split.
  - intros Hf. rewrite bool_decide_eq_false_2 by done. simpl.
    rewrite filterBooks_filter.
    split; [apply sorted_perm|]. unfold sorted.
    split; intros Ho; by rewrite Ho.
  - intros Hf. rewrite bool_decide_eq_true_2 by done. simpl.
    apply sorted_perm.
Qed.

Lemma filter_keeps_category_witness :
  (filterValue (step toUpperCaseLatin shelf (ChangeFilter (lit "Technical")))
   <> lit "All"
   /\ map title
        (projection toUpperCaseLatin
           (step toUpperCaseLatin shelf (ChangeFilter (lit "Technical"))))
      = [lit "Dune"; lit "Clean Code"])
  /\ (filterValue shelf_sorted = lit "All"
      /\ projection toUpperCaseLatin shelf_sorted ≡ₚ store shelf_sorted).
Proof.
  split.
  - assert (Hf : filterValue
                   (step toUpperCaseLatin shelf (ChangeFilter (lit "Technical")))
                 <> lit "All") by (vm_compute; discriminate).
    split; [exact Hf|].
    destruct (proj1 (filter_keeps_category toUpperCaseLatin _) Hf)
      as (_ & He & _).
    rewrite (He eq_refl). reflexivity.
  - split; [reflexivity|].
    exact (proj2 (filter_keeps_category toUpperCaseLatin shelf_sorted)
                 eq_refl).
Defined.

(** ** C7: the projection of an unfiltered, unsorted page *)

(** C7. With the filter on "All" and no sort order set, the projection is
    the store: the same records, hence the same titles, authors and
    categories, in the same order. *)
Theorem projection_all_unset_is_store (toUpperCase : jsstring -> jsstring)
    (s : State) :
  filterValue s = lit "All" -> sortOrderAttr s = None ->
  projection toUpperCase s = store s
  /\ map title (projection toUpperCase s) = map title (store s)
  /\ map author (projection toUpperCase s) = map author (store s)
  /\ map category (projection toUpperCase s) = map category (store s).
Proof.
  intros Hf Ho.
  assert (H : projection toUpperCase s = store s).
  { rewrite projection_eq. unfold sorted, filtered. by rewrite Ho, Hf. }
  by rewrite H.
Qed.

Lemma projection_all_unset_is_store_witness :
  filterValue shelf = lit "All" /\ sortOrderAttr shelf = None
  /\ projection toUpperCaseLatin shelf = store shelf.
Proof.
  split; [reflexivity|]. split; [reflexivity|].
  exact (proj1 (projection_all_unset_is_store toUpperCaseLatin shelf
                  eq_refl eq_refl)).
Defined.

(** ** C8: what the projection shares with the store *)

Lemma load_values (f : nat -> Book) h l :
  load (map (map f) h) l = map f (refLoad h l).
Proof.
  unfold load, refLoad, loc in *.
  change (map (map f) h) with (map f <$> h).
  rewrite list_lookup_fmap. destruct (h !! l); reflexivity.
Qed.

Lemma filterBooks_map (f : nat -> Book) c rs :
  filterBooks c (map f rs)
  = map f (List.filter (fun r => str_eqb (category (f r)) c) rs).
Proof.
  unfold filterBooks. induction rs as [|r rs IH]; simpl; [done|].
  destruct (str_eqb (category (f r)) c); simpl; by rewrite IH.
Qed.

Lemma sort_insert_map {A B} (cmp : B -> B -> Z) (f : A -> B) x l :
  sort_insert cmp (f x) (map f l)
  = map f (sort_insert (fun a b => cmp (f a) (f b)) x l).
Proof.
  induction l as [|y l IH]; simpl; [done|].
  destruct (cmp (f x) (f y) <=? 0)%Z; simpl; [done|]. by rewrite IH.
Qed.

Lemma Array_sort_map {A B} (cmp : B -> B -> Z) (f : A -> B) l :
  Array_sort cmp (map f l)
  = map f (Array_sort (fun a b => cmp (f a) (f b)) l).
Proof.
  induction l as [|x l IH]; simpl; [done|]. by rewrite IH, sort_insert_map.
Qed.

Lemma values_snoc (f : nat -> Book) h v :
  map (map f) h ++ [map f v] = map (map f) (h ++ [v]).
Proof. by rewrite map_app. Qed.

Lemma values_insert (f : nat -> Book) (h : list (list nat)) (l : loc) v :
  <[l := map f v]> (map (map f) h) = map (map f) (<[l := v]> h).
Proof. symmetry. apply (list_fmap_insert (map f)). Qed.

Lemma refLoad_snoc (h : list (list nat)) v : refLoad (h ++ [v]) (length h) = v.
Proof.
  unfold refLoad. rewrite lookup_app_r by lia. by rewrite Nat.sub_diag.
Qed.

Lemma refLoad_insert_eq (h : list (list nat)) (l : loc) v :
  (l < length h)%nat -> refLoad (<[l := v]> h) l = v.
Proof. intros Hl. unfold refLoad. by rewrite list_lookup_insert_eq. Qed.

Lemma refLoad_insert_ne (h : list (list nat)) (l l' : loc) v :
  l <> l' -> refLoad (<[l := v]> h) l' = refLoad h l'.
Proof. intros Hl. unfold refLoad. by rewrite list_lookup_insert_ne. Qed.

Section RefFacts.
Variable toUpperCase : jsstring -> jsstring.

Local Abbreviation getProcessedBooksRef := (getProcessedBooksRef toUpperCase).

(** [getProcessedBooksRef] returns a new array of references, leaves
    the arrays that existed and writes no record. *)
Lemma getProcessedBooksRef_spec s :
  let '(books, s') := getProcessedBooksRef s in
  (length (refHeap s) <= books < length (refHeap s'))%nat
  /\ refLoad (refHeap s') books
     ≡ₚ (if negb (str_eqb (refFilterValue s) (lit "All"))
         then List.filter
                (fun book => str_eqb (category (objects s !!! book))
                                     (refFilterValue s))
                (refLoad (refHeap s) (refBookData s))
         else refLoad (refHeap s) (refBookData s))
  /\ (forall l : loc, (l < length (refHeap s))%nat ->
                      refHeap s' !! l = refHeap s !! l)
  /\ s' = mkRefState (objects s) (refHeap s') (refBookData s)
                     (refSortOrderAttr s) (refFilterValue s).
Proof.
  unfold getProcessedBooksRef.
  set (h0 := refHeap s). set (v0 := refLoad h0 (refBookData s)).
  assert (Hold1 : forall l : loc, (l < length h0)%nat ->
                                  (h0 ++ [v0]) !! l = h0 !! l).
  { intros l Hl. by rewrite lookup_app_l. }
  assert (Hlen1 : length (h0 ++ [v0]) = S (length h0)).
  { rewrite length_app. simpl. lia. }
  destruct (negb (str_eqb (refFilterValue s) (lit "All"))).
  - rewrite !refLoad_snoc.
    set (h1 := h0 ++ [v0]) in *. set (v1 := List.filter _ v0).
    assert (Hold2 : forall l : loc, (l < length h0)%nat ->
                                    (h1 ++ [v1]) !! l = h0 !! l).
    { intros l Hl. rewrite lookup_app_l by lia. auto. }
    assert (Hlen2 : length (h1 ++ [v1]) = S (length h1)).
    { rewrite length_app. simpl. lia. }
    destruct (truthy (refSortOrderAttr s)); cbn [refHeap].
    + rewrite length_insert. split; [lia|].
      split; [rewrite refLoad_insert_eq by lia; apply Array_sort_perm|].
      split; [|done].
      intros l Hl. rewrite list_lookup_insert_ne by lia. auto.
    + split; [lia|]. split; [by rewrite refLoad_snoc|]. by split.
  - rewrite !refLoad_snoc.
    destruct (truthy (refSortOrderAttr s)); cbn [refHeap].
    + rewrite length_insert. split; [lia|].
      split; [rewrite refLoad_insert_eq by lia; apply Array_sort_perm|].
      split; [|done].
      intros l Hl. rewrite list_lookup_insert_ne by lia. auto.
    + split; [lia|]. split; [by rewrite refLoad_snoc|]. by split.
Qed.

(** The model by value computes what the model by reference computes. *)
Lemma getProcessedBooksRef_values s :
  getProcessedBooks toUpperCase (values s)
  = (fst (getProcessedBooksRef s), values (snd (getProcessedBooksRef s))).
Proof.
  unfold getProcessedBooks, getProcessedBooksRef, values, alloc, set_heap.
  cbn [heap bookData sortOrderAttr sortText filterValue bookGrid console].
  set (f := fun r : nat => objects s !!! r).
  rewrite load_values, load_alloc_new', refLoad_snoc.
  destruct (negb (str_eqb (refFilterValue s) (lit "All"))).
  - rewrite load_alloc_new', refLoad_snoc, filterBooks_map, Array_sort_map.
    rewrite !values_snoc, values_insert, !length_map.
    by destruct (truthy (refSortOrderAttr s)).
  - rewrite load_alloc_new', refLoad_snoc, Array_sort_map.
    rewrite !values_snoc, values_insert, !length_map.
    by destruct (truthy (refSortOrderAttr s)).
Qed.
End RefFacts.

(** C8, as stated, fails: the array [getProcessedBooks] returns holds the
    store's own records, and a write to the title of its first element
    changes the title of a record of the store. *)
Lemma shallow_copy_shares_records :
  let r := getProcessedBooksRef toUpperCaseLatin two_books in
  map title (refStore (snd r)) = [lit "Dune"; lit "Clean Code"]
  /\ map title
       (refStore (setElementTitle (fst r) 0 (lit "Hacked") (snd r)))
     = [lit "Dune"; lit "Hacked"]
  /\ refStore (setElementTitle (fst r) 0 (lit "Hacked") (snd r))
     <> refStore two_books.
Proof.
  split; [vm_compute; reflexivity|]. split; [vm_compute; reflexivity|].
  intros H. apply (f_equal (map title)) in H. vm_compute in H. discriminate.
Qed.

(** C8, amended. [getProcessedBooks] writes nothing it was given: the
    records, every array that existed and so the store, [bookData], the
    sort order and the filter are after the call what they were before,
    although the sort works in place. The array it returns did not exist
    before the call: whatever is written to that array afterwards, the
    store keeps its records and their order. The elements it holds are
    references the store holds, to the store's own records, and the model
    by value computes the same projection. *)
Theorem projection_copies_the_array_only (toUpperCase : jsstring -> jsstring)
    (s : RefState) :
  (refBookData s < length (refHeap s))%nat ->
  let books := fst (getProcessedBooksRef toUpperCase s) in
  let s' := snd (getProcessedBooksRef toUpperCase s) in
  objects s' = objects s
  /\ (forall l : loc, (l < length (refHeap s))%nat ->
                      refHeap s' !! l = refHeap s !! l)
  /\ refStore s' = refStore s
  /\ refBookData s' = refBookData s
  /\ refSortOrderAttr s' = refSortOrderAttr s
  /\ refFilterValue s' = refFilterValue s
  /\ (length (refHeap s) <= books)%nat /\ books <> refBookData s
  /\ (forall v, refStore (setArray books v s') = refStore s)
  /\ (forall r, r ∈ refLoad (refHeap s') books ->
                r ∈ refLoad (refHeap s) (refBookData s))
  /\ getProcessedBooks toUpperCase (values s) = (books, values s').
Proof.
  intros Hwf books s'. unfold books, s'.
  pose proof (getProcessedBooksRef_values toUpperCase s) as Hval.
  pose proof (getProcessedBooksRef_spec toUpperCase s) as H.
  destruct (getProcessedBooksRef toUpperCase s) as [b s1].
  destruct H as (Hb & Hload & Hold & Hs1). cbn [fst snd] in *.
  assert (Hst : refStore s1 = refStore s).
  { rewrite Hs1. unfold refStore, refLoad. simpl. by rewrite Hold. }
  rewrite Hs1 at 1 3 4 5. simpl.
  split; [done|]. split; [done|]. split; [done|].
  split; [done|]. split; [done|]. split; [done|].
  split; [lia|]. split; [lia|].
  split; [|split; [|done]].
  - intros v. rewrite <- Hst, Hs1. unfold refStore, setArray. simpl.
    by rewrite refLoad_insert_ne by lia.
  - intros r Hr. rewrite Hload in Hr.
    destruct (negb _); [|done].
    apply list_elem_of_In, filter_In in Hr as [Hr _]. by apply list_elem_of_In.
Qed.

Lemma projection_copies_the_array_only_witness :
  (refBookData two_books < length (refHeap two_books))%nat
  /\ refStore (snd (getProcessedBooksRef toUpperCaseLatin two_books))
     = refStore two_books
  /\ fst (getProcessedBooksRef toUpperCaseLatin two_books)
     <> refBookData two_books.
Proof.
  assert (Hwf : (refBookData two_books < length (refHeap two_books))%nat)
    by (simpl; lia).
  split; [exact Hwf|].
  destruct (projection_copies_the_array_only toUpperCaseLatin two_books Hwf)
    as (_ & _ & Hs & _ & _ & _ & _ & Hne & _).
  split; [exact Hs|exact Hne].
Defined.


(** * Further properties of the script *)

Section ViewFacts.
Variable toUpperCase : jsstring -> jsstring.

Local Abbreviation projection := (projection toUpperCase).
Local Abbreviation step := (step toUpperCase).
Local Abbreviation run := (run toUpperCase).

(** One event keeps the grid in step with the projection. *)
Lemma step_grid_in_step s e :
  wf s -> bookGrid s = renderBooks (projection s) ->
  bookGrid (step s e) = renderBooks (projection (step s e)).
Proof.
  intros Hwf Hg. destruct e as [t a c| |v|i]; simpl.
  - destruct (requiredFilled t a c); [|done].
    by destruct (handleAddBook_spec toUpperCase t a c s Hwf) as (_ & _ & ? & _).
  - by destruct (handleSort_store toUpperCase s Hwf) as (_ & _ & ?).
  - by destruct (changeFilter_spec toUpperCase v s Hwf)
      as (_ & _ & _ & _ & _ & ?).
  - destruct (bookGrid s !! i) as [card|]; [|done].
    unfold handleDelete.
    destruct (deleteMatching_spec toUpperCase (h3 card)
                (replace (lit "Author: ") [] (pAuthor card)) s Hwf)
      as [(l1 & b & l2 & _ & _ & _ & _ & _ & ? & _)|[_ Hsame]];
      [done|by rewrite Hsame].
Qed.

Lemma run_grid_in_step s es :
  wf s -> bookGrid s = renderBooks (projection s) ->
  bookGrid (run s es) = renderBooks (projection (run s es)).
Proof.
  intros Hwf Hg. induction es as [|e es IH] using rev_ind; [done|].
  rewrite run_snoc. apply step_grid_in_step; [by apply run_wf|done].
Qed.

Lemma initial_grid_in_step s :
  initial s -> bookGrid s = renderBooks (projection s).
Proof.
  intros (_ & Hs & Hg). rewrite Hg.
  rewrite projection_eq. unfold filtered, sorted, filterBooks. rewrite Hs.
  by destruct (negb _), (truthy _).
Qed.

(** The card [renderBooks] draws at a position. *)
Lemma renderBooks_lookup l i c :
  renderBooks l !! i = Some c ->
  exists b, l !! i = Some b
            /\ c = mkCard i (imageUrl b) (title b) (lit "Author: " ++ author b)
                          (lit "Category: " ++ category b).
Proof.
  unfold renderBooks. rewrite list_lookup_imap.
  destruct (l !! i) as [b|]; [|done]. intros [= <-]. eauto.
Qed.
End ViewFacts.

(** X1. Additions pile up at the end of the store: after the add handler
    has run on a series of form contents, the store is the old store
    followed by one record per submission, in the order of submission, each
    with the trimmed title and author, the category and the default cover;
    so the store has grown by the number of submissions. *)
Theorem adds_append_in_order (toUpperCase : jsstring -> jsstring)
    (s : State) (adds : list (jsstring * jsstring * jsstring)) :
  wf s ->
  let s' := fold_left (fun s '(t, a, c) => handleAddBook toUpperCase t a c s)
                      adds s in
  store s'
  = store s
    ++ map (fun '(t, a, c) => mkBook (trim t) (trim a) c DEFAULT_IMAGE_URL) adds
  /\ length (store s') = (length (store s) + length adds)%nat
  /\ wf s'.
Proof.
  intros Hwf. simpl. revert s Hwf.
  induction adds as [|[[t a] c] adds IH]; intros s Hwf; simpl.
  - rewrite app_nil_r. split; [done|]. split; [lia|done].
  - destruct (handleAddBook_spec toUpperCase t a c s Hwf) as (Hwf' & Hs & _).
    destruct (IH _ Hwf') as (H1 & H2 & H3).
    split; [by rewrite H1, Hs, <- app_assoc|].
    split; [|done]. rewrite H2, Hs, length_app. simpl. lia.
Qed.

Lemma adds_append_in_order_witness :
  wf page0
  /\ map title
       (store (fold_left
                 (fun s '(t, a, c) => handleAddBook toUpperCaseLatin t a c s)
                 [ (lit " Dune", lit "Frank Herbert", lit "Technical");
                   (lit "Emma ", lit "Jane Austen", lit "Fiction") ] page0))
     = [lit "Dune"; lit "Emma"].
Proof.
  assert (Hwf : wf page0) by (unfold wf; simpl; lia).
  split; [exact Hwf|].
  rewrite (proj1 (adds_append_in_order toUpperCaseLatin page0 _ Hwf)).
  vm_compute. reflexivity.
Defined.

(** X2. Whatever events the page receives from an initial state, as long
    as the fields submitted are plain text, the records of the store are
    plain and the grid shows the current projection: it has one card per
    projected record, the card at position [i] carries [data-index] [i] and
    the cover, title, author and category of the record at position [i] of
    the projection. *)
Theorem grid_shows_projection (toUpperCase : jsstring -> jsstring)
    (s0 : State) (es : list Event) :
  initial s0 -> forallb plainEvent es = true ->
  let s := run toUpperCase s0 es in
  forallb plainBook (store s) = true
  /\ bookGrid s = renderBooks (projection toUpperCase s)
  /\ length (bookGrid s) = length (projection toUpperCase s)
  /\ forall i c, bookGrid s !! i = Some c ->
       exists b, projection toUpperCase s !! i = Some b
                 /\ dataIndex c = i /\ imgSrc c = imageUrl b
                 /\ h3 c = title b
                 /\ pAuthor c = lit "Author: " ++ author b
                 /\ pCategory c = lit "Category: " ++ category b.
Proof.
  intros Hi Hes s.
  assert (Hg : bookGrid s = renderBooks (projection toUpperCase s)).
  { apply run_grid_in_step; [apply Hi|by apply initial_grid_in_step]. }
  split.
  { apply run_plain; [apply Hi| |done].
    destruct Hi as (_ & -> & _). done. }
  split; [done|]. rewrite Hg. split; [apply length_imap|].
  intros i c Hc. apply renderBooks_lookup in Hc as (b & Hb & ->). eauto 10.
Qed.

Lemma grid_shows_projection_witness :
  initial page0
  /\ forallb plainEvent (three_adds ++ [ClickSort; ClickDelete 1]) = true
  /\ bookGrid (run toUpperCaseLatin page0
                 (three_adds ++ [ClickSort; ClickDelete 1]))
     = renderBooks
         (projection toUpperCaseLatin
            (run toUpperCaseLatin page0
               (three_adds ++ [ClickSort; ClickDelete 1]))).
Proof.
  assert (H0 : initial page0).
  { split; [unfold wf; simpl; lia|]. split; reflexivity. }
  assert (Hes : forallb plainEvent (three_adds ++ [ClickSort; ClickDelete 1])
                = true) by reflexivity.
  split; [exact H0|]. split; [exact Hes|].
  exact (proj1 (proj2 (grid_shows_projection toUpperCaseLatin page0
                         (three_adds ++ [ClickSort; ClickDelete 1]) H0 Hes))).
Defined.

(** X3. When the records of the store are plain text and the grid shows
    the projection, a click on the Delete button of a card always removes
    one record: the first record of the store that has the title and the
    author of the projected record the card was drawn from, whatever its
    category and its place in the grid; the other records keep their order,
    the store stays plain and the grid is redrawn. *)
Theorem click_delete_removes_shown (toUpperCase : jsstring -> jsstring)
    (s : State) (i : nat) (card : Card) :
  wf s -> forallb plainBook (store s) = true ->
  bookGrid s = renderBooks (projection toUpperCase s) ->
  bookGrid s !! i = Some card ->
  let s' := step toUpperCase s (ClickDelete i) in
  exists b l1 x l2,
    projection toUpperCase s !! i = Some b
    /\ store s = l1 ++ x :: l2
    /\ title x = title b /\ author x = author b
    /\ Forall (fun y => ~ (title y = title b /\ author y = author b)) l1
    /\ store s' = l1 ++ l2
    /\ S (length (store s')) = length (store s)
    /\ forallb plainBook (store s') = true
    /\ bookGrid s' = renderBooks (projection toUpperCase s').
Proof.
  intros Hwf Hplain Hg Hc. simpl. rewrite Hc. rewrite Hg in Hc.
  apply renderBooks_lookup in Hc as (b & Hb & ->).
  unfold handleDelete. cbn [h3 pAuthor]. rewrite card_author_roundtrip.
  destruct (deleteMatching_spec toUpperCase (title b) (author b) s Hwf)
    as [(l1 & x & l2 & Hs & [Ht Ha] & Hl1 & Hs' & _ & Hg' & _)|[Hno _]].
  - exists b, l1, x, l2. rewrite Hs', Hs, !length_app. simpl.
    rewrite Hs in Hplain. apply delete_plain in Hplain.
    repeat split; try done; lia.
  - exfalso. apply list_elem_of_lookup_2, projection_in_store in Hb.
    eapply Forall_forall in Hno; [|exact Hb]. by apply Hno.
Qed.

Lemma click_delete_removes_shown_witness :
  wf shelf_sorted
  /\ forallb plainBook (store shelf_sorted) = true
  /\ bookGrid shelf_sorted
     = renderBooks (projection toUpperCaseLatin shelf_sorted)
  /\ exists card, bookGrid shelf_sorted !! 1%nat = Some card
  /\ S (length (store (step toUpperCaseLatin shelf_sorted (ClickDelete 1))))
     = length (store shelf_sorted).
Proof.
  assert (Hwf : wf shelf_sorted) by (vm_compute; lia).
  assert (Hp : forallb plainBook (store shelf_sorted) = true)
    by (vm_compute; reflexivity).
  assert (Hg : bookGrid shelf_sorted
               = renderBooks (projection toUpperCaseLatin shelf_sorted))
    by (vm_compute; reflexivity).
  split; [exact Hwf|]. split; [exact Hp|]. split; [exact Hg|].
  assert (Hc : bookGrid shelf_sorted !! 1%nat
               = Some (mkCard 1 DEFAULT_IMAGE_URL (lit "Clean Code")
                         (lit "Author: Robert Martin")
                         (lit "Category: Technical")))
    by (vm_compute; reflexivity).
  eexists. split; [exact Hc|].
  destruct (click_delete_removes_shown toUpperCaseLatin shelf_sorted 1 _
              Hwf Hp Hg Hc)
    as (b & l1 & x & l2 & _ & _ & _ & _ & _ & _ & H & _).
  exact H.
Defined.

Section FrameFacts.
Variable toUpperCase : jsstring -> jsstring.

Local Abbreviation projection := (projection toUpperCase).
Local Abbreviation updateDisplay := (updateDisplay toUpperCase).
Local Abbreviation step := (step toUpperCase).
Local Abbreviation run := (run toUpperCase).


Local Ltac wrong_event :=
  intros; exfalso;
  match goal with H : forall _, _ |- _ => by eapply H end.

(** What one event leaves alone. *)
Lemma step_frame s e :
  wf s ->
  bookData (step s e) = bookData s
  /\ ((forall v, e <> ChangeFilter v) -> filterValue (step s e) = filterValue s)
  /\ ((forall i, e <> ClickDelete i) -> console (step s e) = console s)
  /\ ((forall t a c, e <> Submit t a c) -> (forall i, e <> ClickDelete i) ->
      store (step s e) = store s).
Proof.
  intros Hwf. destruct e as [t a c| |v|i]; simpl.
  - destruct (requiredFilled t a c); [|repeat split; first [done|wrong_event]].
    unfold handleAddBook.
    match goal with |- context [updateDisplay ?x] =>
      assert (Hwf1 : wf x) by (unfold wf; simpl; by rewrite length_insert);
      destruct (updateDisplay_spec toUpperCase x Hwf1)
        as (_ & _ & _ & _ & _ & Hf & Hc & Hb) end.
    rewrite Hf, Hc, Hb. repeat split; first [done|wrong_event].
  - unfold handleSort. destruct (is_asc (sortOrderAttr s));
      match goal with |- context [updateDisplay ?x] =>
        destruct (updateDisplay_spec toUpperCase x Hwf)
          as (_ & Hs & _ & _ & _ & Hf & Hc & Hb) end;
      rewrite Hs, Hf, Hc, Hb; done.
  - destruct (updateDisplay_spec toUpperCase (set_filterValue v s) Hwf)
      as (_ & Hs & _ & _ & _ & Hf & Hc & Hb).
    rewrite Hs, Hc, Hb. repeat split; first [done|wrong_event].
  - destruct (bookGrid s !! i) as [card|];
      [|repeat split; first [done|wrong_event]].
    unfold handleDelete, deleteMatching. destruct (findIndex _ _); simpl.
    + match goal with |- context [updateDisplay ?x] =>
        assert (Hwf1 : wf x) by (unfold wf; simpl; by rewrite length_insert);
        destruct (updateDisplay_spec toUpperCase x Hwf1)
          as (_ & _ & _ & _ & _ & Hf & Hc & Hb) end.
      rewrite Hf, Hb. repeat split; first [done|wrong_event].
    + repeat split; first [done|wrong_event].
Qed.
End FrameFacts.

(** X4. The view commands never write the store: after any series of
    clicks on the sort button and changes of the filter, the store holds
    the records it held, in their order, [bookData] is the same array and
    the console is as it was. *)
Theorem view_commands_keep_store (toUpperCase : jsstring -> jsstring)
    (s : State) (es : list Event) :
  wf s ->
  Forall (fun e => e = ClickSort \/ exists v, e = ChangeFilter v) es ->
  let s' := run toUpperCase s es in
  store s' = store s /\ bookData s' = bookData s /\ console s' = console s.
Proof.
  intros Hwf Hes. simpl. induction es as [|e es IH] using rev_ind; [done|].
  apply Forall_app in Hes as [Hes He]. apply Forall_cons in He as [He _].
  destruct (IH Hes) as (Hs & Hb & Hc). rewrite run_snoc.
  destruct (step_frame toUpperCase (run toUpperCase s es) e
              (run_wf toUpperCase s es Hwf)) as (Hb' & _ & Hc' & Hs').
  rewrite Hb', Hc', Hs', Hs, Hb, Hc; [done|..];
    destruct He as [->|[v ->]]; done.
Qed.

Lemma view_commands_keep_store_witness :
  wf shelf
  /\ Forall (fun e => e = ClickSort \/ exists v, e = ChangeFilter v)
            [ClickSort; ChangeFilter (lit "Comedy"); ClickSort]
  /\ store (run toUpperCaseLatin shelf
              [ClickSort; ChangeFilter (lit "Comedy"); ClickSort])
     = store shelf.
Proof.
  assert (Hwf : wf shelf) by (vm_compute; lia).
  assert (Hes : Forall (fun e => e = ClickSort \/ exists v, e = ChangeFilter v)
                  [ClickSort; ChangeFilter (lit "Comedy"); ClickSort]).
  { constructor; [by left|]. constructor; [right; by eexists|].
    constructor; [by left|constructor]. }
  split; [exact Hwf|]. split; [exact Hes|].
  exact (proj1 (view_commands_keep_store toUpperCaseLatin shelf _ Hwf Hes)).
Defined.

(** X5. What an event leaves alone: no event rebinds [bookData]; only a
    click on the sort button writes its attribute and its label; only a
    change of the filter control changes the filter value; only a click on
    a Delete button writes to the console; and the store is written by
    submissions and Delete clicks alone. *)
Theorem events_write_only_their_own (toUpperCase : jsstring -> jsstring)
    (s : State) (e : Event) :
  wf s ->
  let s' := step toUpperCase s e in
  bookData s' = bookData s
  /\ (e <> ClickSort ->
      sortOrderAttr s' = sortOrderAttr s /\ sortText s' = sortText s)
  /\ ((forall v, e <> ChangeFilter v) -> filterValue s' = filterValue s)
  /\ ((forall i, e <> ClickDelete i) -> console s' = console s)
  /\ ((forall t a c, e <> Submit t a c) -> (forall i, e <> ClickDelete i) ->
      store s' = store s).
Proof.
  intros Hwf. simpl.
  destruct (step_frame toUpperCase s e Hwf) as (Hb & Hf & Hc & Hs).
  split; [done|]. split; [apply step_sortButton|]. by repeat split.
Qed.

Lemma events_write_only_their_own_witness :
  wf shelf
  /\ sortOrderAttr (step toUpperCaseLatin shelf (ClickDelete 0))
     = sortOrderAttr shelf
  /\ filterValue (step toUpperCaseLatin shelf (ClickDelete 0))
     = filterValue shelf.
Proof.
  assert (Hwf : wf shelf) by (vm_compute; lia).
  split; [exact Hwf|].
  destruct (events_write_only_their_own toUpperCaseLatin shelf (ClickDelete 0)
              Hwf) as (_ & Ho & Hf & _).
  split; [exact (proj1 (Ho ltac:(discriminate)))
         |exact (Hf ltac:(discriminate))].
Defined.



(** ** More on the stable sort *)

Lemma StronglySorted_snoc {A} (R : A -> A -> Prop) l x :
  StronglySorted R l -> Forall (fun y => R y x) l ->
  StronglySorted R (l ++ [x]).
Proof.
  induction 1 as [|y l Hl IH Hy]; intros Hx; simpl.
  - repeat constructor.
  - apply Forall_cons in Hx as [Hyx Hx]. constructor; [by apply IH|].
    apply Forall_app. split; [done|by constructor].
Qed.

Lemma StronglySorted_reverse {A} (R : A -> A -> Prop) l :
  StronglySorted R l -> StronglySorted (fun a b => R b a) (reverse l).
Proof.
  induction 1 as [|x l Hl IH Hx]; [constructor|].
  rewrite reverse_cons. apply StronglySorted_snoc; [done|].
  apply Forall_forall. intros y Hy. rewrite elem_of_reverse in Hy.
  rewrite Forall_forall in Hx. by apply Hx.
Qed.

Lemma StronglySorted_filter {A} (R : A -> A -> Prop) (P : A -> Prop)
    `{forall x, Decision (P x)} l :
  StronglySorted R l -> StronglySorted R (filter P l).
Proof.
  induction 1 as [|x l Hl IH Hx]; [constructor|].
  rewrite filter_cons. case_decide; [|done].
  constructor; [done|]. apply Forall_forall. intros y Hy.
  apply list_elem_of_filter in Hy as [_ Hy].
  rewrite Forall_forall in Hx. by apply Hx.
Qed.

(** With no two elements under one key, a key selects at most one
    element. *)
Lemma filter_key_short {A K} `{EqDecision K} (key : A -> K) l k :
  NoDup (map key l) -> (length (filter (fun a => key a = k) l) <= 1)%nat.
Proof.
  induction l as [|a l IH]; simpl; [lia|]. intros Hnd.
  apply NoDup_cons in Hnd as [Ha Hnd]. rewrite filter_cons.
  case_decide as Hk; [|by apply IH]. simpl.
  assert (Hnil : filter (fun a => key a = k) l = []); [|rewrite Hnil; simpl; lia].
  destruct (filter _ l) as [|y f] eqn:E; [done|]. exfalso. apply Ha.
  assert (Hy : y ∈ filter (fun a => key a = k) l) by (rewrite E; left).
  apply list_elem_of_filter in Hy as [Hy Hin].
  rewrite Hk, <- Hy. apply list_elem_of_In, in_map, list_elem_of_In, Hin.
Qed.

Lemma reverse_short {A} (l : list A) : (length l <= 1)%nat -> reverse l = l.
Proof. destruct l as [|x [|y l]]; simpl; [done|done|lia]. Qed.

Lemma Array_sort_ext {A} (f g : A -> A -> Z) l :
  (forall a b, f a b = g a b) -> Array_sort f l = Array_sort g l.
Proof.
  intros Hfg. induction l as [|x l IH]; simpl; [done|]. rewrite IH.
  generalize (Array_sort g l). intros m.
  induction m as [|y m IHm]; simpl; [done|]. by rewrite Hfg, IHm.
Qed.

(** X7. When no two records of the filtered store have the same
    upper-cased title, the projection under "desc" is the projection under
    "asc" read backwards. *)
Theorem desc_is_asc_reversed (toUpperCase : jsstring -> jsstring)
    (s : State) (t1 t2 : jsstring) :
  NoDup (map (fun b => toUpperCase (title b)) (filtered s)) ->
  projection toUpperCase (set_sortButton (Some (lit "desc")) t1 s)
  = reverse (projection toUpperCase (set_sortButton (Some (lit "asc")) t2 s)).
Proof.
  intros Hnd. rewrite !projection_eq. unfold sorted. simpl truthy. cbv iota.
  change (filtered (set_sortButton _ t1 s)) with (filtered s).
  change (filtered (set_sortButton _ t2 s)) with (filtered s).
  simpl sortOrderAttr. symmetry. apply Array_sort_titles_unique.
  - eapply StronglySorted_mono;
      [|apply StronglySorted_reverse, Array_sort_sorted;
        [apply compareTitles_total|apply compareTitles_trans]].
    intros a b. simpl. rewrite !compareTitles_before. done.
  - intros k. rewrite filter_reverse.
    rewrite (Array_sort_stable _ (fun b => toUpperCase (title b)))
      by apply compareTitles_key.
    apply reverse_short, filter_key_short, Hnd.
Qed.

Lemma desc_is_asc_reversed_witness :
  NoDup (map (fun b => toUpperCaseLatin (title b)) (filtered shelf))
  /\ projection toUpperCaseLatin
       (set_sortButton (Some (lit "desc")) label_ZA shelf)
     = reverse (projection toUpperCaseLatin
                  (set_sortButton (Some (lit "asc")) label_AZ shelf)).
Proof.
  assert (Hnd : NoDup (map (fun b => toUpperCaseLatin (title b))
                           (filtered shelf))).
  { vm_compute.
    repeat (constructor;
            [by (intros ?%list_elem_of_In; simpl in *; intuition discriminate)|]).
    constructor. }
  split; [exact Hnd|].
  exact (desc_is_asc_reversed toUpperCaseLatin shelf label_ZA label_AZ Hnd).
Defined.

(** X8. Any non-empty sort order other than "asc" sorts as "desc" does,
    and the empty sort order, like the missing one, leaves the filtered
    store as it is. *)
Theorem other_sort_orders (toUpperCase : jsstring -> jsstring)
    (s : State) (o : jsstring) :
  sortOrderAttr s = Some o ->
  (o = [] -> projection toUpperCase s = filtered s)
  /\ (o <> [] -> o <> lit "asc" ->
      projection toUpperCase s
      = projection toUpperCase
          (set_sortButton (Some (lit "desc")) (sortText s) s)).
Proof.
  intros Ho. rewrite !projection_eq, Ho. unfold sorted.
  change (filtered (set_sortButton _ _ s)) with (filtered s).
  simpl sortOrderAttr. split.
  - by intros ->.
  - intros Hne Hasc. destruct o as [|c o]; [done|]. simpl truthy. cbv iota.
    apply Array_sort_ext. intros a b.
    rewrite (compareTitles_reverse toUpperCase (Some (c :: o)))
      by (unfold is_asc; apply bool_decide_eq_false_2; congruence).
    by rewrite (compareTitles_reverse toUpperCase (Some (lit "desc"))).
Qed.

Lemma other_sort_orders_witness :
  sortOrderAttr (set_sortButton (Some (lit "none")) [] shelf)
  = Some (lit "none")
  /\ map title
       (projection toUpperCaseLatin
          (set_sortButton (Some (lit "none")) [] shelf))
     = [lit "Dune"; lit "Clean Code"; lit "Calvin and Hobbes"].
Proof.
  split; [reflexivity|].
  rewrite (proj2 (other_sort_orders toUpperCaseLatin
                    (set_sortButton (Some (lit "none")) [] shelf)
                    (lit "none") eq_refl)
                 ltac:(discriminate) ltac:(discriminate)).
  vm_compute. reflexivity.
Defined.

(** X9. The record the add handler stores has the typed title and author
    with the white space at both ends taken away and nothing else: each
    typed field is white space, then the stored field, then white space,
    and a stored field neither starts nor ends with white space; the
    category is stored as selected. *)
Theorem add_strips_outer_space_only (toUpperCase : jsstring -> jsstring)
    (s : State) (t a c : jsstring) :
  wf s ->
  exists b w1 w2 v1 v2,
    store (handleAddBook toUpperCase t a c s) = store s ++ [b]
    /\ t = w1 ++ title b ++ w2 /\ a = v1 ++ author b ++ v2
    /\ forallb isWhiteSpace (w1 ++ w2 ++ v1 ++ v2) = true
    /\ (forall x, head (title b) = Some x \/ last (title b) = Some x
                  \/ head (author b) = Some x \/ last (author b) = Some x ->
                  isWhiteSpace x = false)
    /\ category b = c.
Proof.
  intros Hwf.
  destruct (handleAddBook_spec toUpperCase t a c s Hwf) as (_ & Hs & _).
  destruct (trim_decompose t) as (w1 & w2 & Ht & Hw1 & Hw2).
  destruct (trim_decompose a) as (v1 & v2 & Ha & Hv1 & Hv2).
  exists (mkBook (trim t) (trim a) c DEFAULT_IMAGE_URL), w1, w2, v1, v2.
  simpl. split; [done|]. split; [done|]. split; [done|].
  split; [by rewrite !forallb_app, Hw1, Hw2, Hv1, Hv2|].
  split; [|done].
  destruct (trim_ends t) as [H1 H2]. destruct (trim_ends a) as [H3 H4].
  intros x [H|[H|[H|H]]]; eauto.
Qed.

Lemma add_strips_outer_space_only_witness :
  wf page0
  /\ exists b w1 w2 v1 v2,
       store (handleAddBook toUpperCaseLatin (lit "  Dune ") (lit "F. Herbert")
                (lit "Technical") page0) = store page0 ++ [b]
       /\ lit "  Dune " = w1 ++ title b ++ w2
       /\ lit "F. Herbert" = v1 ++ author b ++ v2
       /\ forallb isWhiteSpace (w1 ++ w2 ++ v1 ++ v2) = true.
Proof.
  assert (Hwf : wf page0) by (unfold wf; simpl; lia).
  split; [exact Hwf|].
  destruct (add_strips_outer_space_only toUpperCaseLatin page0 (lit "  Dune ")
              (lit "F. Herbert") (lit "Technical") Hwf)
    as (b & w1 & w2 & v1 & v2 & H1 & H2 & H3 & H4 & _).
  exists b, w1, w2, v1, v2. repeat split; assumption.
Defined.

(** ** Deleting, once more *)

Section DeleteFacts.
Variable toUpperCase : jsstring -> jsstring.

Local Abbreviation updateDisplay := (updateDisplay toUpperCase).
Local Abbreviation deleteMatching := (deleteMatching toUpperCase).

(** The console after the delete path. *)
Lemma deleteMatching_console t a s :
  wf s ->
  console (deleteMatching t a s)
  = match findIndex (fun book => str_eqb (title book) t
                                 && str_eqb (author book) a) (store s) with
    | Some _ => console s ++ [lit "Deleted book: " ++ t]
    | None => console s
    end.
Proof.
  intros Hwf. unfold deleteMatching. fold (store s).
  destruct (findIndex _ _); [|done]. simpl.
  match goal with |- context [updateDisplay ?x] =>
    assert (Hwf1 : wf x) by (unfold wf; simpl; by rewrite length_insert);
    destruct (updateDisplay_spec toUpperCase x Hwf1)
      as (_ & _ & _ & _ & _ & _ & Hc & _) end.
  by rewrite Hc.
Qed.

Lemma findIndex_None (t a : jsstring) (l : list Book) :
  findIndex (fun book => str_eqb (title book) t && str_eqb (author book) a) l
  = None
  <-> Forall (fun x => ~ (title x = t /\ author x = a)) l.
Proof.
  unfold findIndex. rewrite fmap_None, list_find_None.
  apply Forall_proper; [|done]. intros x. unfold str_eqb.
  rewrite andb_true_iff, !bool_decide_eq_true. done.
Qed.

(** The first record that satisfies a property splits a list in one way
    only. *)
Lemma first_hit_unique {A} (P : A -> Prop) l1 x l2 l1' x' l2' :
  l1 ++ x :: l2 = l1' ++ x' :: l2' ->
  P x -> P x' -> Forall (fun y => ~ P y) l1 -> Forall (fun y => ~ P y) l1' ->
  l1 = l1' /\ x = x' /\ l2 = l2'.
Proof.
  revert l1'. induction l1 as [|y l1 IH]; intros [|y' l1'] E Hx Hx' H1 H1';
    simpl in E; injection E as -> E.
  - done.
  - apply Forall_cons in H1' as [Hn _]. done.
  - apply Forall_cons in H1 as [Hn _]. done.
  - apply Forall_cons in H1 as [_ H1]. apply Forall_cons in H1' as [_ H1'].
    destruct (IH _ E Hx Hx' H1 H1') as (-> & -> & ->). done.
Qed.
End DeleteFacts.

(** X10. When the records of the store are plain text, the delete path
    writes one line to the console, "Deleted book: " followed by the title,
    exactly when it removes a record; when no record has the title and the
    author, the console and the store are as before. *)
Theorem delete_logs_what_it_removes (toUpperCase : jsstring -> jsstring)
    (s : State) (t a : jsstring) :
  wf s -> forallb plainBook (store s) = true ->
  let s' := deleteMatching toUpperCase t a s in
  let hit := fun b : Book => title b = t /\ author b = a in
  (Exists hit (store s)
   /\ console s' = console s ++ [lit "Deleted book: " ++ t]
   /\ S (length (store s')) = length (store s)
   /\ forallb plainBook (store s') = true)
  \/ (Forall (fun x => ~ hit x) (store s)
      /\ console s' = console s /\ store s' = store s).
Proof.
  intros Hwf Hplain. simpl.
  pose proof (deleteMatching_console toUpperCase t a s Hwf) as Hc.
  destruct (deleteMatching_spec toUpperCase t a s Hwf)
    as [(l1 & b & l2 & Hs & Hb & _ & Hs' & _)|[Hno Hsame]].
  - left. destruct (findIndex _ _) eqn:E.
    + split; [rewrite Hs; apply Exists_app; right; by left|].
      split; [done|]. rewrite Hs', Hs, !length_app. simpl.
      split; [lia|]. rewrite Hs in Hplain. by apply delete_plain in Hplain.
    + apply findIndex_None in E. rewrite Hs in E.
      apply Forall_app in E as [_ E]. apply Forall_cons in E as [E _]. done.
  - right. by rewrite Hsame.
Qed.

Lemma delete_logs_what_it_removes_witness :
  wf twin_shelf
  /\ forallb plainBook (store twin_shelf) = true
  /\ let s' := deleteMatching toUpperCaseLatin (lit "Dune")
                 (lit "Frank Herbert") twin_shelf in
     let hit := fun b : Book =>
                  title b = lit "Dune" /\ author b = lit "Frank Herbert" in
     (Exists hit (store twin_shelf)
      /\ console s' = console twin_shelf ++ [lit "Deleted book: " ++ lit "Dune"]
      /\ S (length (store s')) = length (store twin_shelf)
      /\ forallb plainBook (store s') = true)
     \/ (Forall (fun x => ~ hit x) (store twin_shelf)
         /\ console s' = console twin_shelf /\ store s' = store twin_shelf).
Proof.
  assert (Hwf : wf twin_shelf) by (vm_compute; lia).
  assert (Hp : forallb plainBook (store twin_shelf) = true)
    by (vm_compute; reflexivity).
  split; [exact Hwf|]. split; [exact Hp|].
  exact (delete_logs_what_it_removes toUpperCaseLatin twin_shelf
           (lit "Dune") (lit "Frank Herbert") Hwf Hp).
Defined.

(** X11. Deleting by the title and author just added: when no older record
    has that title and author, the store is back to what it was before the
    addition; when one has, the oldest such record is removed and the new
    record stays at the end of the store. *)
Theorem add_then_delete (toUpperCase : jsstring -> jsstring)
    (s : State) (t a c : jsstring) :
  wf s ->
  let b := mkBook (trim t) (trim a) c DEFAULT_IMAGE_URL in
  let hit := fun x : Book => title x = trim t /\ author x = trim a in
  let s' := deleteMatching toUpperCase (trim t) (trim a)
              (handleAddBook toUpperCase t a c s) in
  (Forall (fun x => ~ hit x) (store s) -> store s' = store s)
  /\ (forall l1 x l2,
        store s = l1 ++ x :: l2 -> hit x -> Forall (fun y => ~ hit y) l1 ->
        store s' = l1 ++ l2 ++ [b]).
Proof.
  intros Hwf b hit s'.
  destruct (handleAddBook_spec toUpperCase t a c s Hwf) as (Hwf1 & Hs1 & _).
  fold b in Hs1.
  assert (Hb : hit b) by done.
  destruct (deleteMatching_spec toUpperCase (trim t) (trim a) _ Hwf1)
    as [(l1' & x' & l2' & Hs & Hx' & Hl1' & Hs' & _)|[Hno _]].
  - fold s' in Hs'. rewrite Hs1 in Hs. split.
    + intros Hnone.
      destruct (first_hit_unique hit (store s) b [] l1' x' l2')
        as (<- & _ & <-); try done.
      by rewrite Hs', app_nil_r.
    + intros l1 x l2 E Hx Hl1. rewrite E, <- app_assoc in Hs. simpl in Hs.
      destruct (first_hit_unique hit l1 x (l2 ++ [b]) l1' x' l2')
        as (<- & _ & <-); done.
  - exfalso. rewrite Hs1 in Hno. apply Forall_app in Hno as [_ Hno].
    apply Forall_cons in Hno as [Hno _]. by apply Hno.
Qed.

Lemma add_then_delete_witness :
  wf shelf
  /\ Forall (fun x => ~ (title x = trim (lit " Emma")
                         /\ author x = trim (lit "Jane Austen")))
            (store shelf)
  /\ store (deleteMatching toUpperCaseLatin (trim (lit " Emma"))
              (trim (lit "Jane Austen"))
              (handleAddBook toUpperCaseLatin (lit " Emma") (lit "Jane Austen")
                 (lit "Fiction") shelf))
     = store shelf.
Proof.
  assert (Hwf : wf shelf) by (vm_compute; lia).
  assert (Hno : Forall (fun x => ~ (title x = trim (lit " Emma")
                                    /\ author x = trim (lit "Jane Austen")))
                       (store shelf)).
  { vm_compute. repeat (constructor; [intros [? _]; discriminate|]).
    constructor. }
  split; [exact Hwf|]. split; [exact Hno|].
  exact (proj1 (add_then_delete toUpperCaseLatin shelf (lit " Emma")
                  (lit "Jane Austen") (lit "Fiction") Hwf) Hno).
Defined.

(** X12. Filtering and sorting commute: the projection under a category
    filter is the projection under "All" with the cards of other categories
    taken out, so that changing the filter never changes the order of the
    cards that stay. *)
Theorem filtered_view_is_full_view_filtered
    (toUpperCase : jsstring -> jsstring) (s : State) (c : jsstring) :
  c <> lit "All" ->
  projection toUpperCase (set_filterValue c s)
  = filter (fun b => category b = c)
           (projection toUpperCase (set_filterValue (lit "All") s)).
Proof.
  intros Hc. rewrite !projection_eq. unfold filtered, str_eqb.
  simpl filterValue. simpl sortOrderAttr.
  change (store (set_filterValue _ s)) with (store s).
  rewrite bool_decide_eq_false_2, bool_decide_eq_true_2 by done. simpl negb.
  cbv iota. rewrite filterBooks_filter. unfold sorted.
  destruct (truthy (sortOrderAttr s)); [|done].
  symmetry. apply Array_sort_titles_unique.
  - apply StronglySorted_filter, Array_sort_sorted;
      [apply compareTitles_total|apply compareTitles_trans].
  - intros k.
    set (up := fun b : Book => toUpperCase (title b)).
    rewrite !list_filter_filter.
    rewrite (list_filter_iff _ (fun b => category b = c /\ up b = k))
      by (intros; tauto).
    rewrite (list_filter_iff (fun b => up b = k /\ category b = c)
                             (fun b => category b = c /\ up b = k))
      by (intros; tauto).
    rewrite <- !list_filter_filter. f_equal.
    apply (Array_sort_stable _ up), compareTitles_key.
Qed.

Lemma filtered_view_is_full_view_filtered_witness :
  lit "Technical" <> lit "All"
  /\ projection toUpperCaseLatin (set_filterValue (lit "Technical") shelf_sorted)
     = filter (fun b => category b = lit "Technical")
              (projection toUpperCaseLatin
                 (set_filterValue (lit "All") shelf_sorted)).
Proof.
  assert (Hc : lit "Technical" <> lit "All") by discriminate.
  split; [exact Hc|].
  exact (filtered_view_is_full_view_filtered toUpperCaseLatin shelf_sorted
           (lit "Technical") Hc).
Defined.

(** ** More on the projection *)

(** X13. Two calls of [getProcessedBooks] in a row return two different
    arrays with the same contents, neither of them the array of the store,
    and the second call leaves the array of the first one as it is. *)
Theorem successive_projections_do_not_alias
    (toUpperCase : jsstring -> jsstring) (s : State) :
  wf s ->
  let r1 := getProcessedBooks toUpperCase s in
  let r2 := getProcessedBooks toUpperCase (snd r1) in
  fst r1 <> fst r2
  /\ fst r1 <> bookData s /\ fst r2 <> bookData s
  /\ load (heap (snd r2)) (fst r1) = load (heap (snd r1)) (fst r1)
  /\ load (heap (snd r2)) (fst r2) = load (heap (snd r1)) (fst r1).
Proof.
  intros Hwf. simpl.
  pose proof (getProcessedBooks_spec toUpperCase s) as H1.
  destruct (getProcessedBooks toUpperCase s) as [b1 s1].
  destruct H1 as (Hb1 & Hl1 & Hold1 & Hs1). cbn [fst snd].
  pose proof (getProcessedBooks_spec toUpperCase s1) as H2.
  destruct (getProcessedBooks toUpperCase s1) as [b2 s2].
  destruct H2 as (Hb2 & Hl2 & Hold2 & Hs2). cbn [fst snd].
  unfold wf in Hwf.
  split; [lia|]. split; [lia|]. split; [lia|].
  split; [unfold load; by rewrite Hold2 by lia|].
  rewrite Hl2, Hl1. unfold filtered.
  assert (Hst : store s1 = store s).
  { rewrite Hs1. unfold store, load. simpl. by rewrite Hold1. }
  rewrite Hst, Hs1. done.
Qed.

Lemma successive_projections_do_not_alias_witness :
  wf shelf_sorted
  /\ fst (getProcessedBooks toUpperCaseLatin shelf_sorted)
     <> fst (getProcessedBooks toUpperCaseLatin
               (snd (getProcessedBooks toUpperCaseLatin shelf_sorted))).
Proof.
  assert (Hwf : wf shelf_sorted) by (vm_compute; lia).
  split; [exact Hwf|].
  exact (proj1 (successive_projections_do_not_alias toUpperCaseLatin
                  shelf_sorted Hwf)).
Defined.

(** X14. While the filter is on "All", every record has its card: in any
    state the page reaches from an initial one through events whose
    submitted fields are plain text, with the filter on "All", the grid
    has as many cards as the store has records, and the titles shown are
    the titles stored, up to their order. *)
Theorem all_filter_shows_every_record (toUpperCase : jsstring -> jsstring)
    (s0 : State) (es : list Event) :
  initial s0 -> forallb plainEvent es = true ->
  let s := run toUpperCase s0 es in
  filterValue s = lit "All" ->
  forallb plainBook (store s) = true
  /\ length (bookGrid s) = length (store s)
  /\ map h3 (bookGrid s) ≡ₚ map title (store s).
Proof.
  intros Hi Hes s Hf.
  assert (Hg : bookGrid s = renderBooks (projection toUpperCase s)).
  { apply run_grid_in_step; [apply Hi|by apply initial_grid_in_step]. }
  assert (Hp : projection toUpperCase s ≡ₚ store s).
  { rewrite projection_eq, sorted_perm. unfold filtered, str_eqb.
    by rewrite bool_decide_eq_true_2. }
  split.
  { apply run_plain; [apply Hi| |done].
    destruct Hi as (_ & -> & _). done. }
  rewrite Hg. split.
  - unfold renderBooks. rewrite length_imap. by rewrite Hp.
  - rewrite <- Hp. unfold renderBooks.
    generalize (projection toUpperCase s). intros l.
    assert (E : map h3 (imap (fun index book =>
                   mkCard index (imageUrl book) (title book)
                          (lit "Author: " ++ author book)
                          (lit "Category: " ++ category book)) l)
                = map title l); [|by rewrite E].
    apply list_eq. intros i.
    rewrite !list_lookup_fmap, list_lookup_imap. by destruct (l !! i).
Qed.

Lemma all_filter_shows_every_record_witness :
  initial page0
  /\ forallb plainEvent (three_adds ++ [ClickSort]) = true
  /\ filterValue (run toUpperCaseLatin page0 (three_adds ++ [ClickSort]))
     = lit "All"
  /\ length (bookGrid (run toUpperCaseLatin page0 (three_adds ++ [ClickSort])))
     = length (store (run toUpperCaseLatin page0 (three_adds ++ [ClickSort]))).
Proof.
  assert (H0 : initial page0).
  { split; [unfold wf; simpl; lia|]. split; reflexivity. }
  assert (Hes : forallb plainEvent (three_adds ++ [ClickSort]) = true)
    by reflexivity.
  assert (Hf : filterValue (run toUpperCaseLatin page0
                              (three_adds ++ [ClickSort])) = lit "All")
    by (vm_compute; reflexivity).
  split; [exact H0|]. split; [exact Hes|]. split; [exact Hf|].
  exact (proj1 (proj2 (all_filter_shows_every_record toUpperCaseLatin page0
                         (three_adds ++ [ClickSort]) H0 Hes Hf))).
Defined.

(** X15. With a sort order set and no two records of the filtered store
    under one upper-cased title, the projection does not depend on the order
    in which the records were added: two stores that hold the same records
    give the same projection. *)
Theorem sorted_view_forgets_insertion_order
    (toUpperCase : jsstring -> jsstring) (s1 s2 : State) :
  store s1 ≡ₚ store s2 ->
  filterValue s1 = filterValue s2 -> sortOrderAttr s1 = sortOrderAttr s2 ->
  truthy (sortOrderAttr s1) = true ->
  NoDup (map (fun b => toUpperCase (title b)) (filtered s1)) ->
  projection toUpperCase s1 = projection toUpperCase s2.
Proof.
  intros Hs Hf Ho Ht Hnd. rewrite !projection_eq, <- Ho. unfold sorted.
  rewrite Ht.
  assert (Hp : filtered s1 ≡ₚ filtered s2).
  { unfold filtered. rewrite <- Hf.
    destruct (negb _); [|done]. rewrite !filterBooks_filter. by rewrite Hs. }
  apply Array_sort_titles_unique.
  - apply Array_sort_sorted;
      [apply compareTitles_total|apply compareTitles_trans].
  - intros k.
    rewrite (Array_sort_stable _ (fun b => toUpperCase (title b)))
      by apply compareTitles_key.
    pose proof (filter_key_short (fun b => toUpperCase (title b))
                  (filtered s1) k Hnd) as Hlen.
    assert (Hpk : filter (fun b => toUpperCase (title b) = k) (filtered s1)
                  ≡ₚ filter (fun b => toUpperCase (title b) = k) (filtered s2))
      by (by rewrite Hp).
    destruct (filter _ (filtered s1)) as [|x [|y l]]; simpl in Hlen; [| |lia].
    + by apply Permutation_nil_l in Hpk.
    + by apply Permutation_singleton_l in Hpk.
Qed.

Lemma sorted_view_forgets_insertion_order_witness :
  store shelf_sorted
  ≡ₚ store (step toUpperCaseLatin
              (run toUpperCaseLatin page0 (reverse three_adds)) ClickSort)
  /\ truthy (sortOrderAttr shelf_sorted) = true
  /\ NoDup (map (fun b => toUpperCaseLatin (title b)) (filtered shelf_sorted))
  /\ projection toUpperCaseLatin shelf_sorted
     = projection toUpperCaseLatin
         (step toUpperCaseLatin
            (run toUpperCaseLatin page0 (reverse three_adds)) ClickSort).
Proof.
  assert (Hp : store shelf_sorted
               ≡ₚ store (step toUpperCaseLatin
                           (run toUpperCaseLatin page0 (reverse three_adds))
                           ClickSort)).
  { vm_compute.
    match goal with |- Permutation ?l _ => exact (Permutation_rev l) end. }
  assert (Hnd : NoDup (map (fun b => toUpperCaseLatin (title b))
                           (filtered shelf_sorted))).
  { vm_compute.
    repeat (constructor;
            [by (intros ?%list_elem_of_In; simpl in *; intuition discriminate)|]).
    constructor. }
  split; [exact Hp|]. split; [reflexivity|]. split; [exact Hnd|].
  exact (sorted_view_forgets_insertion_order toUpperCaseLatin shelf_sorted _
           Hp eq_refl eq_refl eq_refl Hnd).
Defined.
